(** * NameGenerator: a shallow embedding of [NameGenerator.py]

    The development follows the Python class [NameGenerator]:

    - the trainer [_analyze_names], which folds the retained lines of a
      corpus file into two [Counter]s, one [defaultdict(Counter)] and three
      sets of digrams and trigrams;
    - the sampler [_weighted_random_choice], [_generate_next_char] and
      [random_name], which draw from Python's [random] module;
    - the constructor [__init__] with the pickle cache of
      [_save_training_data] and [_load_training_data], on a disk that maps
      a path to a text file or to a pickled tuple, and the cells of the
      table that the main block prints.

    Modelling decisions.

    - A Python [str] is a [string]; a character is an [ascii], read as a
      code point below 256.  The corpus is taken to be text of that range:
      [str.lower], [str.strip] and [str.capitalize] are given on it as
      Python has them, the sharp s (code point 223) with its capital "Ss"
      included.  The capitals of the micro sign (181) and of the y with
      diaeresis (255) lie outside the range; the model keeps these two
      letters, each capital being one character as well.
    - A [Counter] and a [dict] are association lists in insertion order
      with unique keys, since the order of [distribution.items()] decides
      which item a given draw selects.  A Python [set] is a [gset].
    - An exception is a constructor of [exn]; a computation yields an
      [outcome].  The two [while True] loops run on fuel, and [Timeout]
      means that the loop has not finished within the fuel given.
    - The pseudo random generator is an arbitrary infinite tape of draws
      [nat -> N] read through a cursor.  Each call of [random.random],
      [random.choice] or [random.choices] reads one cell and advances the
      cursor by one, so the cursor also counts the draws made.
      [random.random()] is [k / 2^53] as in CPython.  The product
      [random() * total] inside [random.choices] is taken exactly and
      floored, the final float rounding is left out. *)

From Stdlib Require Import String Ascii NArith ZArith QArith List Lia.
From stdpp Require Import gmap strings list.

Local Open Scope string_scope.
Local Open Scope nat_scope.

(** ** Characters and strings *)

Module Py.

Definition ord (c : ascii) : nat := nat_of_ascii c.

(** The letters A to Z, and the letters a to z. *)
Definition isupper (c : ascii) : bool := (65 <=? ord c) && (ord c <=? 90).
Definition islower (c : ascii) : bool := (97 <=? ord c) && (ord c <=? 122).

(** The letters of the upper half of the range that have their other case
    inside it: 192-222 without the multiplication sign, and 224-254
    without the division sign. *)
Definition isupper_latin1 (c : ascii) : bool :=
  (192 <=? ord c) && (ord c <=? 222) && negb (ord c =? 215).
Definition islower_latin1 (c : ascii) : bool :=
  (224 <=? ord c) && (ord c <=? 254) && negb (ord c =? 247).

(** [str.isspace]: TAB, LF, VT, FF, CR, the four separators 0x1c-0x1f, the
    blank, NEL (133) and the no-break space (160). *)
Definition isspace (c : ascii) : bool :=
  ((9 <=? ord c) && (ord c <=? 13)) || ((28 <=? ord c) && (ord c <=? 32))
  || (ord c =? 133) || (ord c =? 160).

(** The lowercase and the uppercase form of a character: 32 code points
    above, respectively below, for the letters that have one in the range. *)
Definition lower_char (c : ascii) : ascii :=
  if isupper c || isupper_latin1 c then ascii_of_nat (ord c + 32) else c.
Definition upper_char (c : ascii) : ascii :=
  if islower c || islower_latin1 c then ascii_of_nat (ord c - 32) else c.

(** [s.lower()] *)
Fixpoint lower (s : string) : string :=
  match s with
  | EmptyString => EmptyString
  | String c r => String (lower_char c) (lower r)
  end.

(** [s.lstrip()], [s.rstrip()], [s.strip()] *)
Fixpoint lstrip (s : string) : string :=
  match s with
  | EmptyString => EmptyString
  | String c r => if isspace c then lstrip r else s
  end.

Fixpoint rstrip (s : string) : string :=
  match s with
  | EmptyString => EmptyString
  | String c r =>
      match rstrip r with
      | EmptyString => if isspace c then EmptyString else String c EmptyString
      | r' => String c r'
      end
  end.

Definition strip (s : string) : string := rstrip (lstrip s).

(** [s.capitalize()]: the first character in title case, the rest
    lower-cased.  The title case of the sharp s is the two characters
    "Ss"; every other character has a title case of one character. *)
Definition capitalize (s : string) : string :=
  match s with
  | EmptyString => EmptyString
  | String c r =>
      if ord c =? 223 then String "S" (String "s" (lower r))
      else String (upper_char c) (lower r)
  end.

Definition len (s : string) : nat := String.length s.

(** [s[i:j]] for [0 <= i <= j]; a slice never raises, it truncates. *)
Definition slice (s : string) (i j : nat) : string := substring i (j - i) s.

(** [s[:2]] and [s[-2:]] *)
Definition first2 (s : string) : string := slice s 0 2.
Definition last2 (s : string) : string := slice s (len s - 2) (len s).

Definition char_str (c : ascii) : string := String c EmptyString.

End Py.

(** ** Exceptions and outcomes *)

Inductive exn : Type :=
| ValueError
| IndexError
| FileNotFoundError.

Inductive outcome (A : Type) : Type :=
| Ret (a : A)
| Raise (e : exn)
| Timeout.

Arguments Ret {A} a.
Arguments Raise {A} e.
Arguments Timeout {A}.

Definition bindO {A B} (m : outcome A) (f : A -> outcome B) : outcome B :=
  match m with
  | Ret a => f a
  | Raise e => Raise e
  | Timeout => Timeout
  end.

Notation "x <-? m ;; k" := (bindO m (fun x => k))
  (at level 100, m at next level, k at level 200, right associativity).

Fixpoint foldO {A S} (f : S -> A -> outcome S) (l : list A) (s : S) : outcome S :=
  match l with
  | [] => Ret s
  | x :: l' => s' <-? f s x ;; foldO f l' s'
  end.

(** [s[i]] raises [IndexError] out of range; [s[-1]] likewise on the empty
    string. *)
Definition str_index (s : string) (i : nat) : outcome ascii :=
  match String.get i s with
  | Some c => Ret c
  | None => Raise IndexError
  end.

Definition str_last (s : string) : outcome ascii :=
  match Py.len s with
  | 0 => Raise IndexError
  | S n => str_index s n
  end.

(** ** Counters and dictionaries *)

Section Dict.
Context {K : Type} `{EqDecision K}.

(** [d.get(k)] *)
Fixpoint dict_get {V} (k : K) (d : list (K * V)) : option V :=
  match d with
  | [] => None
  | (k', v) :: d' => if decide (k = k') then Some v else dict_get k d'
  end.

(** [c[k] += 1] on a [Counter]: a missing key counts as 0 and is
    appended. *)
Fixpoint counter_incr (k : K) (c : list (K * nat)) : list (K * nat) :=
  match c with
  | [] => [(k, 1)]
  | (k', n) :: c' =>
      if decide (k = k') then (k', S n) :: c' else (k', n) :: counter_incr k c'
  end.

(** [d[a][b] += 1] on a [defaultdict(Counter)] *)
Fixpoint pairs_incr (a b : K)
    (d : list (K * list (K * nat))) : list (K * list (K * nat)) :=
  match d with
  | [] => [(a, [(b, 1)])]
  | (a', c) :: d' =>
      if decide (a = a') then (a', counter_incr b c) :: d'
      else (a', c) :: pairs_incr a b d'
  end.
End Dict.

(** ** The generator object *)

Record NameGenerator : Type := mkNameGenerator {
  name_file : string;
  training_data_file : string;
  letter_pairs : list (ascii * list (ascii * nat));
  trigrams : gset string;
  first_letter_distribution : list (ascii * nat);
  length_distribution : list (nat * nat);
  first_two_letter_digrams : gset string;
  last_two_letter_digrams : gset string
}.

(** [Counter({'a': 1, 'e': 1, 'i': 1, 'o': 1, 'u': 1})] *)
Definition VOWEL_COUNTER : list (ascii * nat) :=
  [("a"%char, 1); ("e"%char, 1); ("i"%char, 1); ("o"%char, 1); ("u"%char, 1)].

(** [name_file.replace('.txt', '.pkl')] *)
Fixpoint replace_txt_pkl (s : string) : string :=
  match s with
  | String "." (String "t" (String "x" (String "t" r))) =>
      ".pkl" ++ replace_txt_pkl r
  | String c r => String c (replace_txt_pkl r)
  | EmptyString => EmptyString
  end.

(** The field initialisation of [__init__] (lines 10-17); the pickle cache
    that follows it is outside this development. *)
Definition init_fields (file_name : string) : NameGenerator :=
  {| name_file := file_name;
     training_data_file := replace_txt_pkl file_name;
     letter_pairs := [];
     trigrams := ∅;
     first_letter_distribution := [];
     length_distribution := [];
     first_two_letter_digrams := ∅;
     last_two_letter_digrams := ∅ |}.

(** ** The trainer *)

(** A file system maps a path to the lines of a text file, or to nothing. *)
Definition filesystem : Type := string -> option (list string).

(** [[line.strip().lower() for line in file if len(line.strip()) >= 2]] *)
Definition retained_names (file : list string) : list string :=
  List.map (fun line => Py.lower (Py.strip line))
    (List.filter (fun line => 2 <=? Py.len (Py.strip line)) file).

(** One round of [for i in range(len(name) - 1)] (lines 39-41). *)
Definition analyze_pair (name : string) (self : NameGenerator) (i : nat)
    : outcome NameGenerator :=
  a <-? str_index name i ;;
  b <-? str_index name (i + 1) ;;
  let lp := pairs_incr a b (letter_pairs self) in
  let tg := if i <? Py.len name - 2
            then {[ Py.slice name i (i + 3) ]} ∪ trigrams self
            else trigrams self in
  Ret {| name_file := name_file self;
         training_data_file := training_data_file self;
         letter_pairs := lp;
         trigrams := tg;
         first_letter_distribution := first_letter_distribution self;
         length_distribution := length_distribution self;
         first_two_letter_digrams := first_two_letter_digrams self;
         last_two_letter_digrams := last_two_letter_digrams self |}.

(** The body of [for name in names] (lines 32-41). *)
Definition analyze_name (self : NameGenerator) (name : string)
    : outcome NameGenerator :=
  c0 <-? str_index name 0 ;;
  let self1 :=
    {| name_file := name_file self;
       training_data_file := training_data_file self;
       letter_pairs := letter_pairs self;
       trigrams := trigrams self;
       first_letter_distribution :=
         counter_incr c0 (first_letter_distribution self);
       length_distribution :=
         counter_incr (Py.len name) (length_distribution self);
       first_two_letter_digrams :=
         {[ Py.first2 name ]} ∪ first_two_letter_digrams self;
       last_two_letter_digrams :=
         {[ Py.last2 name ]} ∪ last_two_letter_digrams self |} in
  foldO (analyze_pair name) (seq 0 (Py.len name - 1)) self1.

Definition _analyze_names (fs : filesystem) (self : NameGenerator)
    : outcome NameGenerator :=
  match fs (name_file self) with
  | None => Raise FileNotFoundError
  | Some file => foldO analyze_name (retained_names file) self
  end.

(** Training a fresh object on a corpus given as its lines. *)
Definition corpus_fs (file_name : string) (file : list string) : filesystem :=
  fun path => if decide (path = file_name) then Some file else None.

Definition train (file : list string) : outcome NameGenerator :=
  _analyze_names (corpus_fs "names.txt" file) (init_fields "names.txt").

(** ** The random source *)

(** The tape of draws and the monad of computations that read it: a
    computation gets the tape and the cursor and yields a value with the
    new cursor, raises, or times out. *)
Definition tape : Type := nat -> N.

Definition M (A : Type) : Type := tape -> nat -> outcome (A * nat).

Definition retM {A} (a : A) : M A := fun _ p => Ret (a, p).

Definition bindM {A B} (m : M A) (f : A -> M B) : M B :=
  fun t p =>
    match m t p with
    | Ret (a, p') => f a t p'
    | Raise e => Raise e
    | Timeout => Timeout
    end.

Definition liftO {A} (o : outcome A) : M A :=
  fun _ p => bindO o (fun a => Ret (a, p)).

Definition timeout {A} : M A := fun _ _ => Timeout.

Notation "x <- m ;; k" := (bindM m (fun x => k))
  (at level 100, m at next level, k at level 200, right associativity).

(** [for _ in range(n): acc = body(acc)] *)
Fixpoint for_range {A} (n : nat) (body : A -> M A) (acc : A) : M A :=
  match n with
  | 0 => retM acc
  | S n' => acc' <- body acc ;; for_range n' body acc'
  end.

(** Python's [random] module, as far as the generator uses it. *)
Module random.

Definition two53 : N := 9007199254740992.

(** [random.random()]: one of the floats [k / 2^53], [0 <= k < 2^53]. *)
Definition random : M Q :=
  fun t p => Ret (Z.of_N (t p mod two53) # 9007199254740992, S p).

(** [random.choice(seq)] on a string: a uniform index below [len(seq)]. *)
Definition choice (seq : string) : M ascii :=
  fun t p =>
    match Py.len seq with
    | 0 => Raise IndexError
    | S _ as n =>
        match String.get (N.to_nat (t p mod N.of_nat n)) seq with
        | Some c => Ret (c, S p)
        | None => Raise IndexError
        end
    end.

(** [itertools.accumulate(weights)] *)
Fixpoint accumulate (acc : N) (weights : list nat) : list N :=
  match weights with
  | [] => []
  | w :: ws => (acc + N.of_nat w)%N :: accumulate (acc + N.of_nat w)%N ws
  end.

(** [bisect.bisect(cum, x, 0, hi)]: the first index below [hi] whose
    cumulative weight exceeds [x], and [hi] when there is none. *)
Fixpoint bisect (cum : list N) (x : N) (hi : nat) : nat :=
  match hi, cum with
  | S hi', c :: cum' => if (x <? c)%N then 0 else S (bisect cum' x hi')
  | _, _ => 0
  end.

(** [random.choices(population, weights=weights, k=1)[0]].  The library
    compares the cumulative weights with the float product
    [random() * total]; the product is exact here.  Rounding moves a draw
    that falls next to the border of two keys to the neighbour, so the key
    that a given cell selects is the library's up to such borders. *)
Definition choices {A} (population : list A) (weights : list nat) : M A :=
  fun t p =>
    let cum_weights := accumulate 0 weights in
    if negb (length cum_weights =? length population) then Raise ValueError
    else
      match List.last (List.map Some cum_weights) None with
      | None => Raise IndexError
      | Some total =>
          if (total =? 0)%N then Raise ValueError
          else
            let x := ((t p mod two53) * total / two53)%N in
            let hi := length population - 1 in
            match nth_error population (bisect cum_weights x hi) with
            | Some a => Ret (a, S p)
            | None => Raise IndexError
            end
      end.

End random.

(** ** The sampler *)

(** Line 58 unzips [distribution.items()] into [items] and [weights]; on
    an empty distribution the unpacking of the empty [zip()] raises
    [ValueError]. *)
Definition _weighted_random_choice {K} (distribution : list (K * nat)) : M K :=
  match distribution with
  | [] => liftO (Raise ValueError)
  | _ :: _ =>
      random.choices (List.map fst distribution) (List.map snd distribution)
  end.

Definition Qltb (x y : Q) : bool := negb (Qle_bool y x).

(** Lines 71-75: the candidate of one round. *)
Definition candidate (self : NameGenerator) (name : string) (use_random : bool)
    : M ascii :=
  if use_random then random.choice "abcdefghijklmnopqrstuvwxyz"
  else
    last <- liftO (str_last name) ;;
    let next_chars :=
      match dict_get last (letter_pairs self) with
      | Some c => c
      | None => VOWEL_COUNTER
      end in
    _weighted_random_choice next_chars.

(** Lines 78-83: [true] when one of the three [continue]s is taken. *)
Definition rejected (self : NameGenerator) (name : string) (length : nat)
    (next_char : ascii) : outcome bool :=
  r1 <-? (if Py.len name =? 1
          then c0 <-? str_index name 0 ;;
               Ret (negb (bool_decide
                      (String c0 (Py.char_str next_char)
                         ∈ first_two_letter_digrams self)))
          else Ret false) ;;
  if r1 then Ret true
  else if (2 <=? Py.len name)
          && negb (bool_decide
               (Py.last2 name ++ Py.char_str next_char ∈ trigrams self))
  then Ret true
  else if length - 1 <=? Py.len name
  then last <-? str_last name ;;
       Ret (negb (bool_decide
              (String last (Py.char_str next_char)
                 ∈ last_two_letter_digrams self)))
  else Ret false.

(** The [while True] of [_generate_next_char] with its [counter]. *)
Fixpoint next_char_loop (fuel : nat) (self : NameGenerator) (name : string)
    (length : nat) (use_random : bool) (counter : nat) : M ascii :=
  match fuel with
  | 0 => timeout
  | S fuel' =>
      let counter := counter + 1 in
      if 100 <=? counter then random.choice "aeiou"
      else
        next_char <- candidate self name use_random ;;
        rej <- liftO (rejected self name length next_char) ;;
        if rej : bool
        then next_char_loop fuel' self name length use_random counter
        else retM next_char
  end.

Definition _generate_next_char (self : NameGenerator) (name : string)
    (length : nat) (noise : Q) : M ascii :=
  u <- random.random ;;
  let use_random := Qltb u noise in
  next_char_loop 100 self name length use_random 0.

(** Lines 98-102: one pass of the outer loop, up to the candidate name. *)
Definition random_name_pass (self : NameGenerator) (noise : Q) : M string :=
  length <- _weighted_random_choice (length_distribution self) ;;
  first <- _weighted_random_choice (first_letter_distribution self) ;;
  for_range (length - 1)
    (fun name =>
       c <- _generate_next_char self name length noise ;;
       retM (name ++ Py.char_str c))
    (Py.char_str first).

Definition is_vowel (c : ascii) : bool :=
  bool_decide (c ∈ ["a"; "e"; "i"; "o"; "u"]%char).

(** [any(char in 'aeiou' for char in name)] *)
Fixpoint has_vowel (name : string) : bool :=
  match name with
  | EmptyString => false
  | String c r => is_vowel c || has_vowel r
  end.

Fixpoint random_name (fuel : nat) (self : NameGenerator) (noise : Q) : M string :=
  match fuel with
  | 0 => timeout
  | S fuel' =>
      name <- random_name_pass self noise ;;
      if has_vowel name then retM (Py.capitalize name)
      else random_name fuel' self noise
  end.

(** ** Predicates on models *)

Definition counts_positive {K} (c : list (K * nat)) : Prop :=
  Forall (fun kv => 1 <= snd kv) c.

Definition pairs_positive {K} (d : list (K * list (K * nat))) : Prop :=
  Forall (fun kc => snd kc <> [] /\ counts_positive (snd kc)) d.

(** The members of [X] have [n] characters and are fixed by [str.lower]. *)
Definition ngrams (n : nat) (X : gset string) : Prop :=
  forall x, x ∈ X -> Py.len x = n /\ Py.lower x = x.

(** What the trainer maintains on every corpus. *)
Record trained_inv (self : NameGenerator) : Prop := {
  inv_first : counts_positive (first_letter_distribution self);
  inv_length : counts_positive (length_distribution self);
  inv_length_keys : Forall (fun kv => 2 <= fst kv) (length_distribution self);
  inv_pairs : pairs_positive (letter_pairs self);
  inv_start : ngrams 2 (first_two_letter_digrams self);
  inv_trigrams : ngrams 3 (trigrams self);
  inv_end : ngrams 2 (last_two_letter_digrams self)
}.

(** Equality of the six statistics, whatever the two file names. *)
Definition same_model (m1 m2 : NameGenerator) : Prop :=
  letter_pairs m1 = letter_pairs m2
  /\ first_letter_distribution m1 = first_letter_distribution m2
  /\ length_distribution m1 = length_distribution m2
  /\ first_two_letter_digrams m1 = first_two_letter_digrams m2
  /\ trigrams m1 = trigrams m2
  /\ last_two_letter_digrams m1 = last_two_letter_digrams m2.

(** ** Attempts of the inner loop *)

(** The round of [_generate_next_char] that reads its candidate at cursor
    [q] rejects it, respectively accepts the candidate [c]. *)
Definition attempt_fails (self : NameGenerator) (name : string) (length : nat)
    (use_random : bool) (t : tape) (q : nat) : Prop :=
  exists c, candidate self name use_random t q = Ret (c, S q)
            /\ rejected self name length c = Ret true.

Definition attempt_passes (self : NameGenerator) (name : string) (length : nat)
    (use_random : bool) (t : tape) (q : nat) (c : ascii) : Prop :=
  candidate self name use_random t q = Ret (c, S q)
  /\ rejected self name length c = Ret false.

(** ** Trained and valid models *)

(** [self] is what the trainer builds from some corpus file. *)
Definition trained (self : NameGenerator) : Prop :=
  exists (fs : filesystem) (file_name : string),
    _analyze_names fs (init_fields file_name) = Ret self.

Fixpoint str_forall (f : ascii -> bool) (s : string) : bool :=
  match s with
  | EmptyString => true
  | String c r => f c && str_forall f r
  end.

Definition lowercase_ngrams (n : nat) (X : gset string) : Prop :=
  forall x, x ∈ X -> Py.len x = n /\ str_forall Py.islower x = true.

(** The invariants of the data model: keys are lowercase letters, counts
    are at least 1, lengths are at least 2, and the three sets hold
    lowercase alphabetic strings of 2, 3 and 2 characters.  A letter that
    is a key of [letter_pairs] came from a training name, where another
    letter follows it, so its counter is not empty. *)
Record valid_model (self : NameGenerator) : Prop := {
  valid_pairs :
    Forall (fun kc => Py.islower (fst kc) = true
                      /\ snd kc <> []
                      /\ Forall (fun kv => Py.islower (fst kv) = true /\ 1 <= snd kv)
                           (snd kc))
      (letter_pairs self);
  valid_first :
    Forall (fun kv => Py.islower (fst kv) = true /\ 1 <= snd kv)
      (first_letter_distribution self);
  valid_length :
    Forall (fun kv => 2 <= fst kv /\ 1 <= snd kv) (length_distribution self);
  valid_start : lowercase_ngrams 2 (first_two_letter_digrams self);
  valid_trigrams : lowercase_ngrams 3 (trigrams self);
  valid_end : lowercase_ngrams 2 (last_two_letter_digrams self)
}.

(** ** Example corpora, models and tapes *)

Definition ann_corpus : list string := ["ann"; "anna"; "ana"].

(** The model of [ann_corpus], field by field. *)
Definition ann_model : NameGenerator :=
  {| name_file := "names.txt";
     training_data_file := "names.pkl";
     letter_pairs :=
       [("a"%char, [("n"%char, 3)]);
        ("n"%char, [("n"%char, 2); ("a"%char, 2)])];
     trigrams := {[ "ann"; "nna"; "ana" ]};
     first_letter_distribution := [("a"%char, 3)];
     length_distribution := [(3, 2); (4, 1)];
     first_two_letter_digrams := {[ "an" ]};
     last_two_letter_digrams := {[ "nn"; "na" ]} |}.

(** A corpus without any vowel, and its model. *)
Definition bcd_corpus : list string := ["bcd"].

Definition bcd_model : NameGenerator :=
  {| name_file := "names.txt";
     training_data_file := "names.pkl";
     letter_pairs := [("b"%char, [("c"%char, 1)]); ("c"%char, [("d"%char, 1)])];
     trigrams := {[ "bcd" ]};
     first_letter_distribution := [("b"%char, 1)];
     length_distribution := [(3, 1)];
     first_two_letter_digrams := {[ "bc" ]};
     last_two_letter_digrams := {[ "cd" ]} |}.

(** The tape whose draws are all 0. *)
Definition tape_zero : tape := fun _ => 0%N.

(** A tape on which [random_name ann_model 0] draws the length 4 (cell 0),
    continues "an" with 'a' (cell 5), has the 99 candidates of the fourth
    letter rejected (cells 7 to 105) and takes the fallback vowel 'e'
    (cell 106). *)
Definition tape_anae : tape :=
  fun i =>
    if i =? 0 then 9007199254740991%N
    else if i =? 5 then 4503599627370496%N
    else if i =? 106 then 1%N
    else 0%N.

(** A tape whose only non-zero draw is cell 100. *)
Definition tape_cell100 : tape := fun i => if i =? 100 then 1%N else 0%N.

(** The names that [random_name ann_model 0] can return: the three of the
    corpus, and "ann" or "ana" followed by a fallback vowel. *)
Definition ann_names : list string :=
  ["Ann"; "Ana"; "Anna"; "Anne"; "Anni"; "Anno"; "Annu";
   "Anaa"; "Anae"; "Anai"; "Anao"; "Anau"].


Definition blank_corpus : list string := [""; " x "; "  "].

Definition digit_model : NameGenerator :=
  {| name_file := "names.txt";
     training_data_file := "names.pkl";
     letter_pairs := [("a"%char, [("1"%char, 1)])];
     trigrams := ∅;
     first_letter_distribution := [("a"%char, 1)];
     length_distribution := [(2, 1)];
     first_two_letter_digrams := {[ "a1" ]};
     last_two_letter_digrams := {[ "a1" ]} |}.

(** ** Reading a model, and what a corpus holds *)

(** [c[k]] on a [Counter]: a missing key reads as 0. *)
Definition counter_get {K} `{EqDecision K} (k : K) (c : list (K * nat)) : nat :=
  match dict_get k c with
  | Some n => n
  | None => 0
  end.

(** The count kept for the letter [b] after the letter [a], 0 when [a] is
    no key of [letter_pairs]. *)
Definition transition_count (a b : ascii)
    (d : list (ascii * list (ascii * nat))) : nat :=
  match dict_get a d with
  | Some c => counter_get b c
  | None => 0
  end.

(** The number of positions of [s] where [b] directly follows [a]. *)
Fixpoint pair_occurrences (a b : ascii) (s : string) : nat :=
  match s with
  | String x (String y _ as r) =>
      (if decide (x = a /\ y = b) then 1 else 0) + pair_occurrences a b r
  | _ => 0
  end.

Definition starts_with (c : ascii) (name : string) : bool :=
  bool_decide (String.get 0 name = Some c).

Definition names_starting (c : ascii) (names : list string) : nat :=
  length (List.filter (starts_with c) names).

Definition names_of_length (L : nat) (names : list string) : nat :=
  length (List.filter (fun name => Py.len name =? L) names).

Definition corpus_pairs (a b : ascii) (names : list string) : nat :=
  list_sum (List.map (pair_occurrences a b) names).

(** [x] is [name[i:i+3]] for an [i] that leaves three characters. *)
Definition trigram_of (x name : string) : Prop :=
  exists i, i + 3 <= Py.len name /\ x = Py.slice name i (i + 3).

(** The sum of the counts of a [Counter]. *)
Definition counter_total {K} (c : list (K * nat)) : nat :=
  list_sum (List.map snd c).

(** What training on [names] adds to the statistics of [s], giving [s']. *)
Record trained_on (names : list string) (s s' : NameGenerator) : Prop := {
  on_first : forall c,
    counter_get c (first_letter_distribution s')
    = counter_get c (first_letter_distribution s) + names_starting c names;
  on_length : forall L,
    counter_get L (length_distribution s')
    = counter_get L (length_distribution s) + names_of_length L names;
  on_pairs : forall a b,
    transition_count a b (letter_pairs s')
    = transition_count a b (letter_pairs s) + corpus_pairs a b names;
  on_start : forall x,
    x ∈ first_two_letter_digrams s'
    <-> x ∈ first_two_letter_digrams s
        \/ exists name, In name names /\ x = Py.first2 name;
  on_end : forall x,
    x ∈ last_two_letter_digrams s'
    <-> x ∈ last_two_letter_digrams s
        \/ exists name, In name names /\ x = Py.last2 name;
  on_trigrams : forall x,
    x ∈ trigrams s'
    <-> x ∈ trigrams s \/ exists name, In name names /\ trigram_of x name;
  on_first_total :
    counter_total (first_letter_distribution s')
    = counter_total (first_letter_distribution s) + length names;
  on_length_total :
    counter_total (length_distribution s')
    = counter_total (length_distribution s) + length names
}.


(** ** Names that follow the transitions *)

(** [y] may follow [x] in a modeled draw: it is a key of the counter kept
    for [x], or one of the vowels that stand in for a missing counter and
    for the fallback. *)
Definition may_follow (self : NameGenerator) (x y : ascii) : Prop :=
  is_vowel y = true
  \/ exists cnt, dict_get x (letter_pairs self) = Some cnt /\ In y (List.map fst cnt).

(** Every character of [s] after the first may follow its predecessor. *)
Fixpoint follows (self : NameGenerator) (s : string) : Prop :=
  match s with
  | String x (String y _ as r) => may_follow self x y /\ follows self r
  | _ => True
  end.

(** ** The pickle cache *)

(** The tuple that [_save_training_data] dumps and [_load_training_data]
    unpacks, in the order of lines 46-47 and 53-54. *)
Definition training_data : Type :=
  (list (ascii * list (ascii * nat)) * list (nat * nat) * list (ascii * nat)
   * gset string * gset string * gset string)%type.

(** A file holds the lines of a text or a tuple pickled by
    [_save_training_data]; [pickle.dump] followed by [pickle.load] gives
    the tuple back as it was. *)
Inductive file_content : Type :=
| TextFile (lines : list string)
| PickleFile (data : training_data).

(** The result of a computation on the disk: an [outcome], or an exception
    of a class outside [exn]. *)
Inductive io (A : Type) : Type :=
| Std (o : outcome A)
| Foreign (class : string).

Arguments Std {A} o.
Arguments Foreign {A} class.

Definition bindIO {A B} (m : io A) (f : A -> io B) : io B :=
  match m with
  | Std (Ret a) => f a
  | Std (Raise e) => Std (Raise e)
  | Std Timeout => Std Timeout
  | Foreign c => Foreign c
  end.

Definition get_data (self : NameGenerator) : training_data :=
  (letter_pairs self, length_distribution self, first_letter_distribution self,
   trigrams self, first_two_letter_digrams self, last_two_letter_digrams self).

Definition set_data (self : NameGenerator) (data : training_data) : NameGenerator :=
  let '(lp, ld, fd, tg, f2, l2) := data in
  {| name_file := name_file self;
     training_data_file := training_data_file self;
     letter_pairs := lp;
     trigrams := tg;
     first_letter_distribution := fd;
     length_distribution := ld;
     first_two_letter_digrams := f2;
     last_two_letter_digrams := l2 |}.

(** [open(path, 'wb')] and [pickle.dump]: the file is created or
    replaced. *)
Definition _save_training_data (self : NameGenerator)
    (d : gmap string file_content) : gmap string file_content :=
  <[training_data_file self := PickleFile (get_data self)]> d.

(** The text files of a disk, as the trainer opens them. *)
Definition text_view (d : gmap string file_content) : filesystem :=
  fun path =>
    match d !! path with
    | Some (TextFile lines) => Some lines
    | _ => None
    end.

Section Persistence.

(** What the two mismatched reads give depends on the bytes of the file and
    is left open: [pickle.load] on a file that holds text, and iterating
    in text mode over a file that holds a pickle. *)
Variable unpickle_text : list string -> io training_data.
Variable read_pickle_as_text : training_data -> io (list string).

Definition _load_training_data (self : NameGenerator)
    (d : gmap string file_content) : io NameGenerator :=
  match d !! training_data_file self with
  | None => Std (Raise FileNotFoundError)
  | Some (PickleFile data) => Std (Ret (set_data self data))
  | Some (TextFile lines) =>
      bindIO (unpickle_text lines) (fun data => Std (Ret (set_data self data)))
  end.

(** [_analyze_names] as [__init__] calls it, on the disk. *)
Definition analyze_on_disk (self : NameGenerator)
    (d : gmap string file_content) : io NameGenerator :=
  match d !! name_file self with
  | Some (PickleFile data) =>
      bindIO (read_pickle_as_text data)
        (fun lines => Std (_analyze_names (corpus_fs (name_file self) lines) self))
  | _ => Std (_analyze_names (text_view d) self)
  end.

(** [NameGenerator(name_file)]: train and write the cache when the pickle
    does not exist, load it otherwise. *)
Definition __init__ (file_name : string) (d : gmap string file_content)
    : io (NameGenerator * gmap string file_content) :=
  let self := init_fields file_name in
  match d !! training_data_file self with
  | None =>
      bindIO (analyze_on_disk self d)
        (fun self' => Std (Ret (self', _save_training_data self' d)))
  | Some _ =>
      bindIO (_load_training_data self d) (fun self' => Std (Ret (self', d)))
  end.

End Persistence.

(** [".txt" in s] *)
Fixpoint has_txt (s : string) : bool :=
  match s with
  | String "." (String "t" (String "x" (String "t" _))) => true
  | String _ r => has_txt r
  | EmptyString => false
  end.

(** ** The table of the main block *)

(** [format(s, '<16')] for a general width: left-aligned, padded with
    blanks, never cut. *)
Definition ljust (s : string) (width : nat) : string :=
  s ++ string_of_list_ascii (List.repeat " "%char (width - Py.len s)).

(** The replacement field [{name[:15]:<16}] of lines 117 and 126. *)
Definition format_cell (name : string) : string := ljust (Py.slice name 0 15) 16.

(** The f-string of line 126: four cells separated by one blank. *)
Definition format_row (a b c d : string) : string :=
  format_cell a ++ " " ++ format_cell b ++ " " ++ format_cell c ++ " "
  ++ format_cell d.

(** ** Names that respect the three checks *)

(** [name] opens with a start digram, shows attested trigrams only and
    closes with an end digram. *)
Definition respects (self : NameGenerator) (name : string) : Prop :=
  Py.first2 name ∈ first_two_letter_digrams self
  /\ (forall i, i + 3 <= Py.len name -> Py.slice name i (i + 3) ∈ trigrams self)
  /\ Py.last2 name ∈ last_two_letter_digrams self.

(** ** Passes of the outer loop *)

(** [k] passes in a row, the first one starting at cursor [p], complete
    with a name that holds no vowel; the last one leaves the cursor at
    [q]. *)
Inductive vowelless_passes (self : NameGenerator) (noise : Q) (t : tape) :
    nat -> nat -> nat -> Prop :=
| vp_0 (p : nat) : vowelless_passes self noise t 0 p p
| vp_S (k p : nat) (name : string) (p1 q : nat) :
    random_name_pass self noise t p = Ret (name, p1) ->
    has_vowel name = false ->
    vowelless_passes self noise t k p1 q ->
    vowelless_passes self noise t (S k) p q.

(** A corpus with a name that holds no vowel and one that does, and its
    model. *)
Definition bc_ab_corpus : list string := ["bc"; "ab"].

Definition bc_ab_model : NameGenerator :=
  {| name_file := "names.txt";
     training_data_file := "names.pkl";
     letter_pairs := [("b"%char, [("c"%char, 1)]); ("a"%char, [("b"%char, 1)])];
     trigrams := ∅;
     first_letter_distribution := [("b"%char, 1); ("a"%char, 1)];
     length_distribution := [(2, 2)];
     first_two_letter_digrams := {[ "bc"; "ab" ]};
     last_two_letter_digrams := {[ "bc"; "ab" ]} |}.

(** A tape on which [random_name bc_ab_model 0] builds "bc" in its first
    pass (cells 0 to 3) and draws the first letter 'a' in its second
    (cell 5). *)
Definition tape_cell5 : tape :=
  fun i => if i =? 5 then 4503599627370496%N else 0%N.

(** ** The sharp s *)

(** The character of code point 223, whose capital is "Ss". *)
Definition sharp_s : ascii := "223"%char.

Definition sharp_s_initial (s : string) : bool :=
  match s with
  | EmptyString => false
  | String c _ => Py.ord c =? 223
  end.

(** A corpus whose only name begins with a sharp s, and its model. *)
Definition sharp_s_corpus : list string := [String sharp_s "a"].

Definition sharp_s_model : NameGenerator :=
  {| name_file := "names.txt";
     training_data_file := "names.pkl";
     letter_pairs := [(sharp_s, [("a"%char, 1)])];
     trigrams := ∅;
     first_letter_distribution := [(sharp_s, 1)];
     length_distribution := [(2, 1)];
     first_two_letter_digrams := {[ String sharp_s "a" ]};
     last_two_letter_digrams := {[ String sharp_s "a" ]} |}.

(** * Properties *)

(** ** Characters and strings *)

Ltac each_char c := destruct c as [[] [] [] [] [] [] [] []].

Lemma lower_char_idem (c : ascii) : Py.lower_char (Py.lower_char c) = Py.lower_char c.
Proof. each_char c; reflexivity. Qed.


Lemma lower_char_fixed (c : ascii) : Py.islower c = true -> Py.lower_char c = c.
Proof. each_char c; vm_compute; congruence. Qed.

Lemma islower_not_upper (c : ascii) : Py.islower c = true -> Py.isupper c = false.
Proof. each_char c; vm_compute; congruence. Qed.

Lemma upper_char_of_lower (c : ascii) :
  Py.islower c = true -> Py.isupper (Py.upper_char c) = true.
Proof. each_char c; vm_compute; congruence. Qed.

Lemma len_lower (s : string) : Py.len (Py.lower s) = Py.len s.
Proof. induction s as [|c s IH]; simpl; [reflexivity | now f_equal]. Qed.

Lemma lower_idem (s : string) : Py.lower (Py.lower s) = Py.lower s.
Proof.
  induction s as [|c s IH]; simpl; [reflexivity|].
  now rewrite lower_char_idem, IH.
Qed.

Lemma len_substring (s : string) :
  forall i n, i + n <= Py.len s -> Py.len (substring i n s) = n.
Proof.
  induction s as [|c s IH]; intros i n Hle; simpl in Hle.
  - assert (i = 0) by lia. assert (n = 0) by lia. subst. reflexivity.
  - destruct i as [|i]; destruct n as [|n]; simpl; try reflexivity.
    + f_equal. apply (IH 0 n). simpl in *. lia.
    + apply (IH i 0). lia.
    + apply (IH i (S n)). lia.
Qed.

Lemma lower_substring (s : string) :
  forall i n, Py.lower (substring i n s) = substring i n (Py.lower s).
Proof.
  induction s as [|c s IH]; intros [|i] [|n]; simpl; try reflexivity.
  - now rewrite (IH 0 n).
  - apply IH.
  - apply IH.
Qed.

Lemma app_cons (c : ascii) (s1 s2 : string) : String c s1 ++ s2 = String c (s1 ++ s2).
Proof. reflexivity. Qed.

Lemma app_empty (s : string) : "" ++ s = s.
Proof. reflexivity. Qed.

Lemma len_app (s1 s2 : string) : Py.len (s1 ++ s2) = Py.len s1 + Py.len s2.
Proof.
  induction s1 as [|c s1 IH]; [reflexivity|].
  rewrite app_cons. unfold Py.len in *. simpl. now rewrite IH.
Qed.

Lemma lower_app (s1 s2 : string) : Py.lower (s1 ++ s2) = Py.lower s1 ++ Py.lower s2.
Proof.
  induction s1 as [|c s1 IH]; [reflexivity|].
  rewrite app_cons. simpl. now rewrite IH.
Qed.

Lemma str_index_total (s : string) :
  forall i, i < Py.len s -> exists c, str_index s i = Ret c.
Proof.
  unfold str_index.
  induction s as [|c s IH]; intros i Hi; simpl in Hi; [lia|].
  destruct i as [|i]; simpl; [eauto|]. apply IH. lia.
Qed.

Lemma str_last_total (s : string) : s <> "" -> exists c, str_last s = Ret c.
Proof.
  intros Hs. unfold str_last. destruct (Py.len s) as [|n] eqn:E.
  - destruct s; [congruence | discriminate].
  - apply str_index_total. lia.
Qed.

Lemma first2_spec (s : string) :
  2 <= Py.len s -> Py.len (Py.first2 s) = 2 /\ Py.lower (Py.first2 s) = Py.first2 (Py.lower s).
Proof.
  intros H. unfold Py.first2, Py.slice. split.
  - apply len_substring. lia.
  - apply lower_substring.
Qed.

Lemma last2_spec (s : string) :
  2 <= Py.len s -> Py.len (Py.last2 s) = 2 /\ Py.lower (Py.last2 s) = Py.last2 (Py.lower s).
Proof.
  intros H. unfold Py.last2, Py.slice. split.
  - replace (Py.len s - (Py.len s - 2)) with 2 by lia. apply len_substring. lia.
  - rewrite len_lower. apply lower_substring.
Qed.

(** ** The trainer *)

Lemma foldO_inv {A S} (P : S -> Prop) (f : S -> A -> outcome S) (l : list A) :
  (forall s x, In x l -> P s -> exists s', f s x = Ret s' /\ P s') ->
  forall s, P s -> exists s', foldO f l s = Ret s' /\ P s'.
Proof.
  induction l as [|x l IH]; intros Hf s Hs; simpl.
  - eauto.
  - destruct (Hf s x (or_introl eq_refl) Hs) as (s1 & -> & Hs1). simpl.
    apply IH; [|exact Hs1]. intros s0 y Hy. apply Hf. now right.
Qed.

Lemma foldO_rel {A S} (R : S -> S -> Prop) (f : S -> A -> outcome S) (l : list A) :
  (forall s1 s2 x s1', R s1 s2 -> f s1 x = Ret s1' ->
     exists s2', f s2 x = Ret s2' /\ R s1' s2') ->
  forall s1 s2 s1', R s1 s2 -> foldO f l s1 = Ret s1' ->
    exists s2', foldO f l s2 = Ret s2' /\ R s1' s2'.
Proof.
  intros Hf. induction l as [|x l IH]; intros s1 s2 s1' HR; simpl.
  - intros [= <-]. eauto.
  - destruct (f s1 x) as [t1| |] eqn:E1; simpl; try discriminate.
    destruct (Hf _ _ _ _ HR E1) as (t2 & -> & HR'). simpl. now apply IH.
Qed.

Section CounterFacts.
Context {K : Type} `{EqDecision K}.

Lemma counter_incr_Forall (P : K * nat -> Prop) (k : K) (c : list (K * nat)) :
  P (k, 1) -> (forall n, P (k, n) -> P (k, S n)) ->
  Forall P c -> Forall P (counter_incr k c).
Proof.
  intros H1 HS. induction 1 as [|[k' n] c Hx Hc IH]; simpl.
  - constructor; [exact H1 | constructor].
  - destruct (decide (k = k')) as [<-|]; constructor; auto.
Qed.

Lemma counter_incr_nonempty (k : K) (c : list (K * nat)) : counter_incr k c <> [].
Proof. destruct c as [|[k' n] c]; simpl; [|destruct (decide (k = k'))]; discriminate. Qed.

Lemma counter_incr_positive (k : K) (c : list (K * nat)) :
  counts_positive c -> counts_positive (counter_incr k c).
Proof. apply counter_incr_Forall; simpl; intros; lia. Qed.

Lemma pairs_incr_positive (a b : K) (d : list (K * list (K * nat))) :
  pairs_positive d -> pairs_positive (pairs_incr a b d).
Proof.
  induction 1 as [|[a' c] d [Hne Hc] Hd IH]; simpl.
  - constructor; [|constructor]. simpl. split; [discriminate|].
    constructor; [simpl; lia | constructor].
  - destruct (decide (a = a')) as [<-|]; constructor; auto; simpl.
    split; [apply counter_incr_nonempty | now apply counter_incr_positive].
Qed.
End CounterFacts.

(** A retained name has at least two characters and is lower-cased. *)
Lemma retained_names_spec (file : list string) (name : string) :
  In name (retained_names file) -> 2 <= Py.len name /\ Py.lower name = name.
Proof.
  unfold retained_names. rewrite in_map_iff. intros (line & <- & Hin).
  apply filter_In in Hin. destruct Hin as [_ Hlen].
  apply Nat.leb_le in Hlen. rewrite len_lower, lower_idem. auto.
Qed.

Lemma ngrams_add (n : nat) (x : string) (X : gset string) :
  Py.len x = n -> Py.lower x = x -> ngrams n X -> ngrams n ({[ x ]} ∪ X).
Proof.
  intros Hl Hx HX y Hy. apply elem_of_union in Hy. destruct Hy as [Hy|Hy].
  - apply elem_of_singleton in Hy. subst. auto.
  - auto.
Qed.

Lemma analyze_pair_inv (name : string) (self : NameGenerator) (i : nat) :
  Py.lower name = name -> i < Py.len name - 1 -> trained_inv self ->
  exists self', analyze_pair name self i = Ret self' /\ trained_inv self'.
Proof.
  intros Hlow Hi [H1 H2 H3 H4 H5 H6 H7]. unfold analyze_pair.
  destruct (str_index_total name i) as (a & ->); [lia|].
  destruct (str_index_total name (i + 1)) as (b & ->); [lia|]. simpl.
  eexists; split; [reflexivity|]. constructor; simpl; auto.
  - now apply pairs_incr_positive.
  - destruct (i <? Py.len name - 2) eqn:E; [|exact H6].
    apply Nat.ltb_lt in E. unfold Py.slice.
    replace (i + 3 - i) with 3 by lia.
    apply ngrams_add; [| |exact H6].
    + apply len_substring. lia.
    + now rewrite lower_substring, Hlow.
Qed.

Lemma analyze_name_inv (self : NameGenerator) (name : string) :
  2 <= Py.len name -> Py.lower name = name -> trained_inv self ->
  exists self', analyze_name self name = Ret self' /\ trained_inv self'
    /\ first_letter_distribution self' <> []
    /\ length_distribution self' <> [].
Proof.
  intros Hlen Hlow [H1 H2 H3 H4 H5 H6 H7]. unfold analyze_name.
  destruct (str_index_total name 0) as (c0 & ->); [lia|]. simpl.
  match goal with |- context [foldO _ _ ?s] => set (self1 := s) end.
  destruct (foldO_inv
    (fun s => trained_inv s
              /\ first_letter_distribution s = first_letter_distribution self1
              /\ length_distribution s = length_distribution self1)
    (analyze_pair name) (seq 0 (Py.len name - 1))) with (s := self1)
    as (self' & Hrun & Hinv & Hf & Hl).
  - intros s i Hi (Hs & Hsf & Hsl). apply in_seq in Hi.
    destruct (analyze_pair_inv name s i) as (s' & Hs' & Hinv'); auto; [lia|].
    exists s'. split; [exact Hs'|]. split; [exact Hinv'|].
    unfold analyze_pair in Hs'.
    destruct (str_index name i); simpl in Hs'; try discriminate.
    destruct (str_index name (i + 1)); simpl in Hs'; try discriminate.
    injection Hs' as <-. simpl. auto.
  - split; [|split; reflexivity]. constructor; simpl; auto.
    + now apply counter_incr_positive.
    + now apply counter_incr_positive.
    + apply counter_incr_Forall; simpl; auto.
    + destruct (first2_spec name Hlen) as [Ha Hb].
      apply ngrams_add; auto. now rewrite Hb, Hlow.
    + destruct (last2_spec name Hlen) as [Ha Hb].
      apply ngrams_add; auto. now rewrite Hb, Hlow.
  - exists self'. split; [exact Hrun|]. split; [exact Hinv|].
    rewrite Hf, Hl. simpl. split; apply counter_incr_nonempty.
Qed.

Lemma init_fields_inv (file_name : string) : trained_inv (init_fields file_name).
Proof.
  constructor; unfold counts_positive, pairs_positive; simpl; try apply List.Forall_nil;
    intros x Hx; now apply not_elem_of_empty in Hx.
Qed.

(** The trainer always completes on an existing file, and its result
    satisfies [trained_inv]. *)
Lemma analyze_names_inv (fs : filesystem) (self : NameGenerator) (file : list string) :
  fs (name_file self) = Some file -> trained_inv self ->
  exists self', _analyze_names fs self = Ret self' /\ trained_inv self'.
Proof.
  intros Hfs Hinv. unfold _analyze_names. rewrite Hfs.
  apply foldO_inv; [|exact Hinv].
  intros s name Hin Hs. apply retained_names_spec in Hin. destruct Hin as [Hl Hw].
  destruct (analyze_name_inv s name Hl Hw Hs) as (s' & ? & ? & _). eauto.
Qed.

(** With at least one retained name both top-level distributions are
    non-empty. *)
Lemma analyze_names_nonempty (fs : filesystem) (self self' : NameGenerator)
    (file : list string) :
  fs (name_file self) = Some file -> trained_inv self ->
  retained_names file <> [] ->
  _analyze_names fs self = Ret self' ->
  first_letter_distribution self' <> [] /\ length_distribution self' <> [].
Proof.
  intros Hfs Hinv Hne. unfold _analyze_names. rewrite Hfs.
  pose proof (retained_names_spec file) as Hspec.
  destruct (retained_names file) as [|name names]; [congruence|]. simpl.
  destruct (Hspec name (or_introl eq_refl)) as [Hl Hw].
  destruct (analyze_name_inv self name Hl Hw Hinv) as (s1 & -> & Hs1 & Hne1). simpl.
  intros Hrun.
  destruct (foldO_inv
    (fun s => trained_inv s /\ first_letter_distribution s <> []
              /\ length_distribution s <> [])
    analyze_name names) with (s := s1) as (s2 & Hrun2 & _ & Hres); auto.
  - intros s x Hx (Hs & _). destruct (Hspec x (or_intror Hx)) as [Hxl Hxw].
    destruct (analyze_name_inv s x Hxl Hxw Hs) as (s' & ? & ? & ?). eauto.
  - congruence.
Qed.

(** ** The monad and the random source *)

Lemma bindM_ret_inv {A B} (m : M A) (f : A -> M B) (t : tape) (p : nat)
    (b : B) (p' : nat) :
  bindM m f t p = Ret (b, p') ->
  exists a p1, m t p = Ret (a, p1) /\ f a t p1 = Ret (b, p').
Proof.
  unfold bindM. destruct (m t p) as [[a p1]| |]; try discriminate. eauto.
Qed.

Lemma bindM_ret {A B} (m : M A) (f : A -> M B) (t : tape) (p : nat)
    (a : A) (p1 : nat) :
  m t p = Ret (a, p1) -> bindM m f t p = f a t p1.
Proof. unfold bindM. now intros ->. Qed.

Lemma liftO_ret_inv {A} (o : outcome A) (t : tape) (p : nat) (a : A) (p' : nat) :
  liftO o t p = Ret (a, p') -> o = Ret a /\ p' = p.
Proof. unfold liftO. destruct o; simpl; try discriminate. now intros [= -> ->]. Qed.

Ltac inv_bind H :=
  let a := fresh "a" in
  let q := fresh "q" in
  let H1 := fresh H "a" in
  apply bindM_ret_inv in H; destruct H as (a & q & H1 & H).

Lemma length_accumulate (ws : list nat) :
  forall acc, length (random.accumulate acc ws) = length ws.
Proof. induction ws as [|w ws IH]; intros acc; simpl; [reflexivity | now rewrite IH]. Qed.

Lemma last_accumulate (ws : list nat) :
  forall acc, ws <> [] ->
  List.last (List.map Some (random.accumulate acc ws)) None
  = Some (acc + N.of_nat (list_sum ws))%N.
Proof.
  induction ws as [|w ws IH]; intros acc Hne; [congruence|].
  destruct ws as [|w' ws].
  - simpl. f_equal. lia.
  - change (random.accumulate acc (w :: w' :: ws))
      with ((acc + N.of_nat w)%N :: random.accumulate (acc + N.of_nat w)%N (w' :: ws)).
    change (List.map Some (?x :: ?l)) with (Some x :: List.map Some l).
    assert (Hstep : forall (a : option N) l d, l <> [] -> List.last (a :: l) d = List.last l d).
    { intros a [|b l] d Hl; [congruence | reflexivity]. }
    rewrite Hstep.
    + rewrite IH by discriminate. f_equal. simpl. lia.
    + simpl. discriminate.
Qed.

Lemma bisect_le (cum : list N) (x : N) : forall hi, random.bisect cum x hi <= hi.
Proof.
  induction cum as [|c cum IH]; intros [|hi]; simpl; try lia.
  destruct (x <? c)%N; [lia|]. specialize (IH hi). lia.
Qed.

Lemma choices_ret {A} (population : list A) (weights : list nat) (t : tape)
    (p : nat) (a : A) (p' : nat) :
  random.choices population weights t p = Ret (a, p') ->
  p' = S p /\ In a population.
Proof.
  unfold random.choices.
  destruct (negb _); [discriminate|].
  destruct (List.last _ _) as [total|]; [|discriminate].
  destruct (total =? 0)%N; [discriminate|].
  destruct (nth_error _ _) as [x|] eqn:E; [|discriminate].
  intros [= -> <-]. split; [reflexivity|]. eapply nth_error_In, E.
Qed.

Lemma choices_total {A} (population : list A) (weights : list nat) (t : tape)
    (p : nat) :
  length weights = length population -> weights <> [] ->
  Forall (fun w => 1 <= w) weights ->
  exists a, random.choices population weights t p = Ret (a, S p).
Proof.
  intros Hlen Hne Hpos. unfold random.choices.
  rewrite length_accumulate, Hlen, Nat.eqb_refl. simpl.
  rewrite last_accumulate by exact Hne.
  assert (Hsum : 1 <= list_sum weights).
  { destruct Hpos as [|w ws Hw _]; [congruence|]. simpl. lia. }
  destruct (0 + N.of_nat (list_sum weights) =? 0)%N eqn:E.
  { apply N.eqb_eq in E. lia. }
  match goal with |- context [nth_error _ ?i] => set (idx := i) end.
  assert (Hidx : idx < length population).
  { pose proof (bisect_le (random.accumulate 0 weights)
      ((t p mod random.two53) * (0 + N.of_nat (list_sum weights)) / random.two53)%N
      (length population - 1)) as Hb.
    fold idx in Hb. destruct weights; [congruence|]. simpl in Hlen. lia. }
  destruct (nth_error population idx) as [a|] eqn:Ea; [eauto|].
  apply nth_error_None in Ea. lia.
Qed.

Lemma weighted_ret {K} (distribution : list (K * nat)) (t : tape) (p : nat)
    (k : K) (p' : nat) :
  _weighted_random_choice distribution t p = Ret (k, p') ->
  p' = S p /\ In k (List.map fst distribution).
Proof.
  destruct distribution as [|kv d]; [discriminate|].
  unfold _weighted_random_choice. apply choices_ret.
Qed.

Lemma weighted_total {K} (distribution : list (K * nat)) (t : tape) (p : nat) :
  distribution <> [] -> counts_positive distribution ->
  exists k, _weighted_random_choice distribution t p = Ret (k, S p).
Proof.
  intros Hne Hpos. destruct distribution as [|kv d]; [congruence|].
  unfold _weighted_random_choice. apply choices_total.
  - now rewrite !length_map.
  - discriminate.
  - unfold counts_positive in Hpos. rewrite List.Forall_map. exact Hpos.
Qed.

Lemma weighted_empty {K} (t : tape) (p : nat) :
  @_weighted_random_choice K [] t p = Raise ValueError.
Proof. reflexivity. Qed.

(** On a distribution with a single key the draw is that key. *)
Lemma weighted_single {K} (k : K) (n : nat) (t : tape) (p : nat) :
  1 <= n -> _weighted_random_choice [(k, n)] t p = Ret (k, S p).
Proof.
  intros Hn. destruct (weighted_total [(k, n)] t p) as (k' & Hk').
  - discriminate.
  - constructor; [exact Hn | constructor].
  - rewrite Hk'. apply weighted_ret in Hk'. destruct Hk' as [_ [<-|[]]]. reflexivity.
Qed.

Lemma get_In (s : string) : forall i c, String.get i s = Some c -> In c (list_ascii_of_string s).
Proof.
  induction s as [|a s IH]; intros [|i] c; simpl; try discriminate.
  - intros [= ->]. now left.
  - intros H. right. eapply IH, H.
Qed.

Lemma choice_ret (seq : string) (t : tape) (p : nat) (c : ascii) (p' : nat) :
  random.choice seq t p = Ret (c, p') ->
  p' = S p /\ In c (list_ascii_of_string seq).
Proof.
  unfold random.choice. destruct (Py.len seq); [discriminate|].
  destruct (String.get _ seq) as [x|] eqn:E; [|discriminate].
  intros [= -> <-]. split; [reflexivity|]. eapply get_In, E.
Qed.

Lemma choice_total (seq : string) (t : tape) (p : nat) :
  seq <> "" -> exists c, random.choice seq t p = Ret (c, S p).
Proof.
  intros Hne. unfold random.choice.
  destruct (Py.len seq) as [|n] eqn:En.
  { destruct seq; [congruence | discriminate]. }
  assert (Hlt : N.to_nat (t p mod N.of_nat (S n)) < Py.len seq).
  { rewrite En. pose proof (N.mod_upper_bound (t p) (N.of_nat (S n))). lia. }
  destruct (str_index_total seq _ Hlt) as (c & Hc). unfold str_index in Hc.
  destruct (String.get _ seq) as [x|]; [eauto | discriminate].
Qed.

Lemma random_ret (t : tape) (p : nat) :
  exists u, random.random t p = Ret (u, S p) /\ (0 <= u)%Q.
Proof.
  eexists. split; [reflexivity|]. unfold Qle. cbn [Qnum Qden].
  generalize (N2Z.is_nonneg (t p mod random.two53)).
  generalize (Z.of_N (t p mod random.two53)). intros z Hz. lia.
Qed.

(** [random.random() < 0.0] never holds. *)
Lemma Qltb_zero (u : Q) : (0 <= u)%Q -> Qltb u 0 = false.
Proof.
  intros H. unfold Qltb. apply negb_false_iff. now apply Qle_bool_iff.
Qed.

(** ** The inner loop *)

Lemma dict_get_In {K V} `{EqDecision K} (k : K) (d : list (K * V)) (v : V) :
  dict_get k d = Some v -> In (k, v) d.
Proof.
  induction d as [|[k' v'] d IH]; simpl; [discriminate|].
  destruct (decide (k = k')) as [->|]; [intros [= ->]; now left | auto].
Qed.

Lemma candidate_ret (self : NameGenerator) (name : string) (use_random : bool)
    (t : tape) (p : nat) (c : ascii) (p' : nat) :
  candidate self name use_random t p = Ret (c, p') -> p' = S p.
Proof.
  unfold candidate. destruct use_random.
  - intros H. now apply choice_ret in H.
  - intros H. inv_bind H. apply liftO_ret_inv in Ha. destruct Ha as [_ ->].
    now apply weighted_ret in H.
Qed.

Lemma candidate_total (self : NameGenerator) (name : string) (use_random : bool)
    (t : tape) (p : nat) :
  name <> "" -> pairs_positive (letter_pairs self) ->
  exists c, candidate self name use_random t p = Ret (c, S p).
Proof.
  intros Hne Hpos. unfold candidate. destruct use_random.
  - apply choice_total. discriminate.
  - destruct (str_last_total name Hne) as (l & Hl).
    unfold bindM, liftO. rewrite Hl. simpl.
    destruct (dict_get l (letter_pairs self)) as [cnt|] eqn:E.
    + apply dict_get_In in E. unfold pairs_positive in Hpos.
      rewrite List.Forall_forall in Hpos. destruct (Hpos _ E) as [Hc1 Hc2].
      now apply weighted_total.
    + apply weighted_total; [discriminate|].
      unfold VOWEL_COUNTER. repeat constructor.
Qed.

Lemma rejected_total (self : NameGenerator) (name : string) (length : nat)
    (c : ascii) :
  name <> "" -> exists b, rejected self name length c = Ret b.
Proof.
  intros Hne. unfold rejected.
  assert (Hlen : 0 < Py.len name) by (destruct name; [congruence | simpl; lia]).
  destruct (str_index_total name 0 Hlen) as (c0 & ->).
  destruct (str_last_total name Hne) as (l & ->).
  destruct (Py.len name =? 1); simpl.
  - destruct (negb _); simpl; [eauto|].
    destruct (_ && _); [eauto|]. destruct (_ <=? _); simpl; eauto.
  - destruct (_ && _); [eauto|]. destruct (_ <=? _); simpl; eauto.
Qed.

(** With enough fuel the loop ends: it never runs past its hundredth
    round. *)
Lemma next_char_loop_total (self : NameGenerator) (name : string) (length : nat)
    (use_random : bool) (t : tape) :
  name <> "" -> pairs_positive (letter_pairs self) ->
  forall fuel counter p, 100 <= counter + fuel -> 1 <= fuel ->
  exists c p', next_char_loop fuel self name length use_random counter t p = Ret (c, p').
Proof.
  intros Hne Hpos. induction fuel as [|fuel IH]; intros counter p Hf H1; [lia|].
  cbn [next_char_loop]. destruct (100 <=? counter + 1) eqn:E.
  - destruct (choice_total "aeiou" t p) as (c & Hc); [discriminate | eauto].
  - apply Nat.leb_gt in E.
    destruct (candidate_total self name use_random t p Hne Hpos) as (c & Hc).
    rewrite (bindM_ret _ _ _ _ _ _ Hc).
    destruct (rejected_total self name length c Hne) as (b & Hb).
    unfold bindM at 1, liftO. rewrite Hb. simpl.
    destruct b; [apply IH; lia | unfold retM; eauto].
Qed.

(** The loop returns the first candidate that is not rejected, and the
    fallback vowel once the counter has reached 100, which is after
    [99 - counter] rejected candidates. *)
Lemma next_char_loop_spec (self : NameGenerator) (name : string) (length : nat)
    (use_random : bool) (t : tape) :
  forall fuel counter p c p',
  next_char_loop fuel self name length use_random counter t p = Ret (c, p') ->
  (exists k, counter + k < 99 /\ p' = p + k + 1
     /\ attempt_passes self name length use_random t (p + k) c
     /\ forall j, j < k -> attempt_fails self name length use_random t (p + j))
  \/ (p' = p + (99 - counter) + 1
      /\ random.choice "aeiou" t (p + (99 - counter)) = Ret (c, p')
      /\ forall j, j < 99 - counter ->
           attempt_fails self name length use_random t (p + j)).
Proof.
  induction fuel as [|fuel IH]; intros counter p c p' H; [discriminate|].
  cbn [next_char_loop] in H. destruct (100 <=? counter + 1) eqn:E.
  - apply Nat.leb_le in E. right.
    replace (99 - counter) with 0 by lia. rewrite Nat.add_0_r.
    pose proof (choice_ret _ _ _ _ _ H) as [-> _].
    split; [lia|]. split; [exact H|]. intros j Hj. lia.
  - apply Nat.leb_gt in E. inv_bind H.
    pose proof (candidate_ret _ _ _ _ _ _ _ Ha) as ->.
    inv_bind H. apply liftO_ret_inv in Ha0. destruct Ha0 as [Hrej ->].
    destruct a0.
    + apply IH in H. destruct H as [(k & Hk & -> & Hpass & Hfail) | (-> & Hc & Hfail)].
      * left. exists (S k). split; [lia|]. split; [lia|].
        replace (p + S k) with (S p + k) by lia. split; [exact Hpass|].
        intros [|j] Hj.
        -- rewrite Nat.add_0_r. exists a. auto.
        -- replace (p + S j) with (S p + j) by lia. apply Hfail. lia.
      * right. replace (p + (99 - counter)) with (S p + (99 - (counter + 1))) by lia.
        split; [lia|]. split; [exact Hc|].
        intros [|j] Hj.
        -- rewrite Nat.add_0_r. exists a. auto.
        -- replace (p + S j) with (S p + j) by lia. apply Hfail. lia.
    + injection H as <- <-. left. exists 0. rewrite !Nat.add_0_r.
      split; [lia|]. split; [lia|]. split; [split; assumption|]. intros j Hj. lia.
Qed.

(** A first candidate that is not rejected is returned at once. *)
Lemma next_char_loop_first (self : NameGenerator) (name : string) (length : nat)
    (use_random : bool) (t : tape) (fuel counter p : nat) (c : ascii) :
  counter < 99 -> attempt_passes self name length use_random t p c ->
  next_char_loop (S fuel) self name length use_random counter t p = Ret (c, S p).
Proof.
  intros Hc [Hcand Hrej]. cbn [next_char_loop].
  destruct (100 <=? counter + 1) eqn:E; [apply Nat.leb_le in E; lia|].
  rewrite (bindM_ret _ _ _ _ _ _ Hcand). unfold bindM, liftO. rewrite Hrej.
  reflexivity.
Qed.

Lemma generate_next_char_total (self : NameGenerator) (name : string)
    (length : nat) (noise : Q) (t : tape) (p : nat) :
  name <> "" -> pairs_positive (letter_pairs self) ->
  exists c p', _generate_next_char self name length noise t p = Ret (c, p').
Proof.
  intros Hne Hpos. unfold _generate_next_char.
  destruct (random_ret t p) as (u & Hu & _). rewrite (bindM_ret _ _ _ _ _ _ Hu).
  apply next_char_loop_total; auto; lia.
Qed.

(** The character returned is a candidate that passed the checks, or one
    of the five vowels. *)
Lemma generate_next_char_cases (self : NameGenerator) (name : string)
    (length : nat) (noise : Q) (t : tape) (p : nat) (c : ascii) (p' : nat) :
  _generate_next_char self name length noise t p = Ret (c, p') ->
  (exists u q, random.random t p = Ret (u, S p)
     /\ attempt_passes self name length (Qltb u noise) t q c)
  \/ is_vowel c = true.
Proof.
  unfold _generate_next_char. intros H. inv_bind H.
  destruct (random_ret t p) as (u & Hu & _). rewrite Hu in Ha. injection Ha as <- <-.
  apply next_char_loop_spec in H.
  destruct H as [(k & _ & _ & Hpass & _) | (_ & Hc & _)].
  - left. eauto.
  - right. apply choice_ret in Hc. destruct Hc as [_ Hin]. simpl in Hin.
    unfold is_vowel. apply bool_decide_eq_true.
    repeat (destruct Hin as [<-|Hin]; [set_solver|]). destruct Hin.
Qed.

(** ** The outer loop *)

Lemma for_range_ret_inv {A} (P : nat -> A -> Prop) (body : A -> M A) (t : tape) :
  (forall i a p a' p', P i a -> body a t p = Ret (a', p') -> P (S i) a') ->
  forall n i acc p a' p',
  P i acc -> for_range n body acc t p = Ret (a', p') -> P (n + i) a'.
Proof.
  intros Hbody. induction n as [|n IH]; intros i acc p a' p' Hacc H.
  - injection H as <- <-. exact Hacc.
  - cbn [for_range] in H. inv_bind H.
    replace (S n + i) with (n + S i) by lia. eapply IH; [|exact H].
    eapply Hbody; eauto.
Qed.

Lemma for_range_total {A} (P : A -> Prop) (body : A -> M A) (t : tape) :
  (forall a p, P a -> exists a' p', body a t p = Ret (a', p') /\ P a') ->
  forall n acc p, P acc ->
  exists a' p', for_range n body acc t p = Ret (a', p') /\ P a'.
Proof.
  intros Hbody. induction n as [|n IH]; intros acc p Hacc.
  - exists acc, p. split; [reflexivity | exact Hacc].
  - destruct (Hbody acc p Hacc) as (a1 & p1 & H1 & HP1).
    cbn [for_range]. rewrite (bindM_ret _ _ _ _ _ _ H1). now apply IH.
Qed.

Lemma app_char_nonempty (name : string) (c : ascii) : name ++ Py.char_str c <> "".
Proof. destruct name; discriminate. Qed.

(** One pass appends [length - 1] characters to the first letter. *)
Lemma random_name_pass_len (self : NameGenerator) (noise : Q) (t : tape)
    (p : nat) (name : string) (p' : nat) :
  random_name_pass self noise t p = Ret (name, p') ->
  exists L, _weighted_random_choice (length_distribution self) t p = Ret (L, S p)
            /\ Py.len name = 1 + (L - 1).
Proof.
  unfold random_name_pass. intros H. inv_bind H. rename a into L.
  pose proof (weighted_ret _ _ _ _ _ Ha) as [-> _].
  inv_bind H. rename a into first. exists L. split; [exact Ha|].
  match type of H with
  | for_range _ ?body _ _ _ = _ =>
      assert (Hbody : forall i a p0 a' p0',
                Py.len a = 1 + i -> body a t p0 = Ret (a', p0') -> Py.len a' = 1 + S i)
  end.
  { intros i a p0 a' p0' Hi Hb. inv_bind Hb. injection Hb as <- _.
    rewrite len_app, Hi. simpl. lia. }
  pose proof (for_range_ret_inv (fun i s => Py.len s = 1 + i) _ t Hbody
                (L - 1) 0 (Py.char_str first) _ _ _ eq_refl H) as Hlen.
  simpl in Hlen. lia.
Qed.

(** On a model whose counters are all usable a pass always completes. *)
Lemma random_name_pass_total (self : NameGenerator) (noise : Q) (t : tape) (p : nat) :
  counts_positive (length_distribution self) ->
  counts_positive (first_letter_distribution self) ->
  pairs_positive (letter_pairs self) ->
  length_distribution self <> [] -> first_letter_distribution self <> [] ->
  exists name p', random_name_pass self noise t p = Ret (name, p').
Proof.
  intros Hl Hf Hp Hln Hfn. unfold random_name_pass.
  destruct (weighted_total _ t p Hln Hl) as (L & HL).
  rewrite (bindM_ret _ _ _ _ _ _ HL).
  destruct (weighted_total _ t (S p) Hfn Hf) as (c & Hc).
  rewrite (bindM_ret _ _ _ _ _ _ Hc).
  destruct (for_range_total (fun s => s <> "")
    (fun name => c0 <- _generate_next_char self name L noise ;;
                 retM (name ++ Py.char_str c0)) t) with (n := L - 1)
    (acc := Py.char_str c) (p := S (S p)) as (name & p' & H & _).
  - intros a q Ha.
    destruct (generate_next_char_total self a L noise t q Ha Hp) as (x & q' & Hx).
    rewrite (bindM_ret _ _ _ _ _ _ Hx). unfold retM.
    eexists _, _. split; [reflexivity | apply app_char_nonempty].
  - discriminate.
  - eauto.
Qed.

(** What [random_name] returns is the capitalised name of a pass that
    produced a vowel. *)
Lemma random_name_inv (self : NameGenerator) (noise : Q) (t : tape) :
  forall fuel p s p',
  random_name fuel self noise t p = Ret (s, p') ->
  exists p0 name,
    random_name_pass self noise t p0 = Ret (name, p')
    /\ has_vowel name = true /\ s = Py.capitalize name.
Proof.
  induction fuel as [|fuel IH]; intros p s p' H; [discriminate|].
  cbn [random_name] in H. inv_bind H.
  destruct (has_vowel a) eqn:E.
  - injection H as <- <-. exists p, a. auto.
  - apply IH in H. exact H.
Qed.

(** A pass whose name holds a vowel ends the call. *)
Lemma random_name_returns (self : NameGenerator) (noise : Q) (t : tape)
    (p : nat) (name : string) (p' : nat) (fuel : nat) :
  random_name_pass self noise t p = Ret (name, p') -> has_vowel name = true ->
  random_name (S fuel) self noise t p = Ret (Py.capitalize name, p').
Proof.
  intros Hp Hv. cbn [random_name]. rewrite (bindM_ret _ _ _ _ _ _ Hp). now rewrite Hv.
Qed.

(** After [k] passes without a vowel the loop stands at the cursor that
    these passes left: with fuel for more than [k] passes the call returns
    what the next pass builds, once that holds a vowel. *)
Lemma random_name_after_passes (self : NameGenerator) (noise : Q) (t : tape)
    (k p q : nat) :
  vowelless_passes self noise t k p q ->
  forall name p' fuel,
  random_name_pass self noise t q = Ret (name, p') -> has_vowel name = true ->
  k < fuel -> random_name fuel self noise t p = Ret (Py.capitalize name, p').
Proof.
  induction 1 as [p|k p nm p1 q Hp Hv Hrest IH]; intros name p' fuel Hq Hvow Hk.
  - destruct fuel as [|fuel]; [lia|]. now apply random_name_returns.
  - destruct fuel as [|fuel]; [lia|]. cbn [random_name].
    rewrite (bindM_ret _ _ _ _ _ _ Hp), Hv. apply IH; auto. lia.
Qed.

(** With fuel for [k] passes or fewer the call is still in its loop. *)
Lemma random_name_still_looping (self : NameGenerator) (noise : Q) (t : tape)
    (k p q : nat) :
  vowelless_passes self noise t k p q ->
  forall fuel, fuel <= k -> random_name fuel self noise t p = Timeout.
Proof.
  induction 1 as [p|k p nm p1 q Hp Hv Hrest IH]; intros fuel Hk.
  - assert (fuel = 0) by lia. subst. reflexivity.
  - destruct fuel as [|fuel]; [reflexivity|]. cbn [random_name].
    rewrite (bindM_ret _ _ _ _ _ _ Hp), Hv. apply IH. lia.
Qed.

(** What the call returns is the capitalised name of the first pass that
    holds a vowel, the passes following one another on the tape. *)
Lemma random_name_ret_passes (self : NameGenerator) (noise : Q) (t : tape) :
  forall fuel p s p',
  random_name fuel self noise t p = Ret (s, p') ->
  exists k q name,
    k < fuel /\ vowelless_passes self noise t k p q
    /\ random_name_pass self noise t q = Ret (name, p')
    /\ has_vowel name = true /\ s = Py.capitalize name.
Proof.
  induction fuel as [|fuel IH]; intros p s p' H; [discriminate|].
  cbn [random_name] in H. inv_bind H.
  destruct (has_vowel a) eqn:E.
  - injection H as <- <-. exists 0, p, a. repeat split; auto; [lia | constructor].
  - apply IH in H. destruct H as (k & q0 & name & Hk & Hvp & Hpass & Hv & ->).
    exists (S k), q0, name. repeat split; auto; [lia | econstructor; eauto].
Qed.

(** When every pass completes, a call with fuel for [fuel] passes has
    either returned the name of the first pass with a vowel, or seen
    [fuel] passes without one. *)
Lemma random_name_dichotomy (self : NameGenerator) (noise : Q) (t : tape) :
  (forall p, exists name p', random_name_pass self noise t p = Ret (name, p')) ->
  forall fuel p,
    (exists k q name p',
       k < fuel /\ vowelless_passes self noise t k p q
       /\ random_name_pass self noise t q = Ret (name, p')
       /\ has_vowel name = true
       /\ random_name fuel self noise t p = Ret (Py.capitalize name, p'))
    \/ (exists q, vowelless_passes self noise t fuel p q
                  /\ random_name fuel self noise t p = Timeout).
Proof.
  intros Hpass. induction fuel as [|fuel IH]; intros p.
  - right. exists p. split; [constructor | reflexivity].
  - destruct (Hpass p) as (name & p1 & Hp). destruct (has_vowel name) eqn:E.
    + left. exists 0, p, name, p1. split; [lia|]. split; [constructor|].
      repeat split; auto. now apply random_name_returns.
    + destruct (IH p1) as [(k & q & nm & p' & Hk & Hvp & Hq & Hv & Hr)
                          | (q & Hvp & Hr)].
      * left. exists (S k), q, nm, p'. split; [lia|].
        split; [econstructor; eauto|]. repeat split; auto.
        cbn [random_name]. now rewrite (bindM_ret _ _ _ _ _ _ Hp), E.
      * right. exists q. split; [econstructor; eauto|].
        cbn [random_name]. now rewrite (bindM_ret _ _ _ _ _ _ Hp), E.
Qed.

Lemma bc_ab_first_pass : vowelless_passes bc_ab_model 0 tape_cell5 1 0 4.
Proof.
  apply (vp_S _ _ _ 0 0 "bc" 4 4); [vm_compute; reflexivity | reflexivity | constructor].
Qed.

Lemma train_bc_ab : train bc_ab_corpus = Ret bc_ab_model.
Proof. vm_compute. reflexivity. Qed.

(** ** Properties of every returned name *)

Lemma vowel_lower_char (c : ascii) :
  is_vowel c = true -> is_vowel (Py.lower_char c) = true.
Proof. each_char c; vm_compute; congruence. Qed.

Lemma vowel_capital (c : ascii) :
  is_vowel c = true -> is_vowel (Py.lower_char (Py.upper_char c)) = true.
Proof. each_char c; vm_compute; congruence. Qed.

Lemma vowel_islower (c : ascii) : is_vowel c = true -> Py.islower c = true.
Proof. each_char c; vm_compute; congruence. Qed.

Lemma has_vowel_lower (s : string) :
  has_vowel s = true -> has_vowel (Py.lower s) = true.
Proof.
  induction s as [|c s IH]; simpl; [discriminate|].
  intros H. apply orb_true_iff in H. apply orb_true_iff.
  destruct H as [H|H]; [left; now apply vowel_lower_char | right; auto].
Qed.

Lemma vowel_not_sharp_s (c : ascii) : is_vowel c = true -> (Py.ord c =? 223) = false.
Proof. each_char c; vm_compute; congruence. Qed.

Lemma has_vowel_capitalize (s : string) :
  has_vowel s = true -> has_vowel (Py.lower (Py.capitalize s)) = true.
Proof.
  destruct s as [|c s]; [discriminate|]. unfold Py.capitalize.
  cbn [has_vowel]. intros H. apply orb_true_iff in H.
  destruct H as [H|H].
  - rewrite (vowel_not_sharp_s c H). cbn [Py.lower has_vowel].
    apply orb_true_iff. left. now apply vowel_capital.
  - assert (Hl : has_vowel (Py.lower (Py.lower s)) = true)
      by (rewrite lower_idem; now apply has_vowel_lower).
    destruct (Py.ord c =? 223); cbn [Py.lower has_vowel]; rewrite Hl;
      now rewrite !orb_true_r.
Qed.

(** C7. Every string that [random_name] returns, on any model (so on every
    trained one) and for any noise, contains one of the vowels a, e, i, o,
    u once it is lower-cased. *)
Theorem random_name_has_vowel (self : NameGenerator) (noise : Q) (fuel : nat)
    (t : tape) (p : nat) (s : string) (p' : nat) :
  random_name fuel self noise t p = Ret (s, p') ->
  has_vowel (Py.lower s) = true.
Proof.
  intros H. apply random_name_inv in H.
  destruct H as (p0 & name & _ & Hv & ->). now apply has_vowel_capitalize.
Qed.

Lemma random_name_has_vowel_witness :
  random_name 1 ann_model 0 tape_zero 0 = Ret ("Ann", 6)
  /\ has_vowel (Py.lower "Ann") = true.
Proof.
  split; [vm_compute; reflexivity|].
  apply (random_name_has_vowel ann_model 0 1 tape_zero 0 "Ann" 6).
  vm_compute. reflexivity.
Defined.

Lemma len_capitalize (s : string) :
  Py.len (Py.capitalize s) = if sharp_s_initial s then Py.len s + 1 else Py.len s.
Proof.
  destruct s as [|c s]; [reflexivity|]. unfold Py.capitalize, sharp_s_initial.
  destruct (Py.ord c =? 223); simpl; rewrite len_lower; lia.
Qed.

Lemma trained_has_inv (self : NameGenerator) : trained self -> trained_inv self.
Proof.
  intros (fs & f & H).
  destruct (fs f) as [file|] eqn:Hfs.
  - destruct (analyze_names_inv fs (init_fields f) file Hfs (init_fields_inv f))
      as (self' & Hrun & Hinv).
    rewrite Hrun in H. now injection H as <-.
  - unfold _analyze_names in H. simpl in H. rewrite Hfs in H. discriminate.
Qed.

Lemma train_sharp_s : train sharp_s_corpus = Ret sharp_s_model.
Proof. vm_compute. reflexivity. Qed.

(** C10 as claimed fails on a name that begins with a sharp s.  On the
    model of the corpus of the one name made of a sharp s and an 'a', the
    pass draws the length 2 and builds these two characters; the capital of
    the sharp s being "Ss", the call returns the three characters "Ssa",
    and 3 is no key of [length_distribution]. *)
Lemma sharp_s_name_is_longer :
  train sharp_s_corpus = Ret sharp_s_model
  /\ _weighted_random_choice (length_distribution sharp_s_model) tape_zero 0
     = Ret (2, 1)
  /\ random_name_pass sharp_s_model 0 tape_zero 0 = Ret (String sharp_s "a", 4)
  /\ random_name 1 sharp_s_model 0 tape_zero 0 = Ret ("Ssa", 4)
  /\ Py.len "Ssa" = 3
  /\ ~ In 3 (List.map fst (length_distribution sharp_s_model)).
Proof.
  repeat split; try (vm_compute; reflexivity).
  simpl. intros [H|[]]. discriminate.
Qed.

(** C10, as the code has it.  On a trained model the name that the
    returning pass builds has the length that the pass drew from
    [length_distribution] at its start, which is one of its keys, and what
    [random_name] returns is that name capitalised: it has the same length,
    but for a name that begins with a sharp s, whose capital "Ss" makes it
    one character longer. *)
Theorem random_name_length (self : NameGenerator) (noise : Q) (fuel : nat)
    (t : tape) (p : nat) (s : string) (p' : nat) :
  trained self ->
  random_name fuel self noise t p = Ret (s, p') ->
  exists p0 name L,
    random_name_pass self noise t p0 = Ret (name, p')
    /\ s = Py.capitalize name
    /\ _weighted_random_choice (length_distribution self) t p0 = Ret (L, S p0)
    /\ In L (List.map fst (length_distribution self))
    /\ Py.len name = L
    /\ Py.len s = (if sharp_s_initial name then L + 1 else L).
Proof.
  intros Htr H. apply trained_has_inv in Htr.
  apply random_name_inv in H. destruct H as (p0 & name & Hpass & _ & ->).
  destruct (random_name_pass_len _ _ _ _ _ _ Hpass) as (L & HL & Hlen).
  assert (HL' := HL). apply weighted_ret in HL'. destruct HL' as [_ HLkey].
  assert (Hname : Py.len name = L).
  { rewrite Hlen. apply in_map_iff in HLkey. destruct HLkey as ([k n] & <- & Hin).
    pose proof (inv_length_keys _ Htr) as Hkeys.
    rewrite List.Forall_forall in Hkeys. specialize (Hkeys _ Hin). simpl in *. lia. }
  exists p0, name, L. repeat split; auto.
  now rewrite len_capitalize, Hname.
Qed.

Lemma train_ann : train ann_corpus = Ret ann_model.
Proof. vm_compute. reflexivity. Qed.

Lemma trained_ann : trained ann_model.
Proof.
  exists (corpus_fs "names.txt" ann_corpus), "names.txt". vm_compute. reflexivity.
Qed.

Lemma random_name_length_witness :
  exists p0 name L,
    random_name_pass sharp_s_model 0 tape_zero p0 = Ret (name, 4)
    /\ "Ssa" = Py.capitalize name
    /\ _weighted_random_choice (length_distribution sharp_s_model) tape_zero p0
       = Ret (L, S p0)
    /\ In L (List.map fst (length_distribution sharp_s_model))
    /\ Py.len name = L
    /\ Py.len "Ssa" = (if sharp_s_initial name then L + 1 else L).
Proof.
  apply (random_name_length sharp_s_model 0 1 tape_zero 0 "Ssa" 4).
  - exists (corpus_fs "names.txt" sharp_s_corpus), "names.txt". vm_compute. reflexivity.
  - vm_compute. reflexivity.
Defined.

(** ** Valid models *)

Lemma str_forall_app (f : ascii -> bool) (s1 s2 : string) :
  str_forall f (s1 ++ s2) = str_forall f s1 && str_forall f s2.
Proof.
  induction s1 as [|c s1 IH]; [reflexivity|].
  rewrite app_cons. simpl. now rewrite IH, andb_assoc.
Qed.

Lemma lower_fixed (s : string) : str_forall Py.islower s = true -> Py.lower s = s.
Proof.
  induction s as [|c s IH]; simpl; [reflexivity|].
  intros H. apply andb_true_iff in H. destruct H as [Hc Hs].
  rewrite IH by exact Hs. f_equal. now apply lower_char_fixed.
Qed.

Lemma alphabet_islower (c : ascii) :
  In c (list_ascii_of_string "abcdefghijklmnopqrstuvwxyz") -> Py.islower c = true.
Proof.
  simpl. intros H. repeat (destruct H as [<-|H]; [reflexivity|]). destruct H.
Qed.

Lemma candidate_islower (self : NameGenerator) (name : string) (use_random : bool)
    (t : tape) (q : nat) (c : ascii) (q' : nat) :
  valid_model self ->
  candidate self name use_random t q = Ret (c, q') -> Py.islower c = true.
Proof.
  intros Hv. unfold candidate. destruct use_random; intros H.
  - apply choice_ret in H. destruct H as [_ H]. now apply alphabet_islower.
  - inv_bind H. apply liftO_ret_inv in Ha. destruct Ha as [_ ->].
    apply weighted_ret in H. destruct H as [_ H].
    apply in_map_iff in H. destruct H as ([k n] & <- & Hin). simpl.
    destruct (dict_get a (letter_pairs self)) as [cnt|] eqn:E.
    + apply dict_get_In in E. pose proof (valid_pairs _ Hv) as Hp.
      rewrite List.Forall_forall in Hp. destruct (Hp _ E) as (_ & _ & Hcnt).
      rewrite List.Forall_forall in Hcnt. now destruct (Hcnt _ Hin).
    + unfold VOWEL_COUNTER in Hin. simpl in Hin.
      repeat (destruct Hin as [[= <- _]|Hin]; [reflexivity|]). destruct Hin.
Qed.

Lemma generate_next_char_islower (self : NameGenerator) (name : string)
    (length : nat) (noise : Q) (t : tape) (p : nat) (c : ascii) (p' : nat) :
  valid_model self ->
  _generate_next_char self name length noise t p = Ret (c, p') ->
  Py.islower c = true.
Proof.
  intros Hv H. apply generate_next_char_cases in H.
  destruct H as [(u & q & _ & Hcand & _) | H].
  - eapply candidate_islower; eauto.
  - now apply vowel_islower.
Qed.

(** On a valid model a pass yields a first lowercase letter followed by
    lowercase letters. *)
Lemma random_name_pass_lower (self : NameGenerator) (noise : Q) (t : tape)
    (p : nat) (name : string) (p' : nat) :
  valid_model self ->
  random_name_pass self noise t p = Ret (name, p') ->
  exists first rest, name = String first rest
    /\ Py.islower first = true /\ str_forall Py.islower rest = true.
Proof.
  intros Hv H. unfold random_name_pass in H. inv_bind H. rename a into L.
  inv_bind H. rename a into first.
  assert (Hfirst : Py.islower first = true).
  { apply weighted_ret in Ha0. destruct Ha0 as [_ Hin].
    apply in_map_iff in Hin. destruct Hin as ([k n] & <- & Hin).
    pose proof (valid_first _ Hv) as Hf. rewrite List.Forall_forall in Hf.
    now destruct (Hf _ Hin). }
  match type of H with
  | for_range _ ?body _ _ _ = _ =>
      pose proof (for_range_ret_inv
        (fun (_ : nat) s => exists rest, s = String first rest
                            /\ str_forall Py.islower rest = true) body t) as Hinv
  end.
  destruct (Hinv ltac:(
    intros i s p0 s' p0' (rest & -> & Hrest) Hb; inv_bind Hb;
    injection Hb as <- _; exists (rest ++ Py.char_str a);
    split; [reflexivity|];
    rewrite str_forall_app, Hrest; simpl;
    erewrite generate_next_char_islower by eauto; reflexivity)
    (L - 1) 0 (Py.char_str first) _ _ _
    (ex_intro _ EmptyString (conj eq_refl eq_refl)) H) as (rest & -> & Hrest).
  eauto.
Qed.

Lemma valid_model_usable (self : NameGenerator) :
  valid_model self ->
  counts_positive (length_distribution self)
  /\ counts_positive (first_letter_distribution self)
  /\ pairs_positive (letter_pairs self).
Proof.
  intros [Hp Hf Hl _ _ _]. unfold counts_positive, pairs_positive. repeat split.
  - eapply List.Forall_impl; [|exact Hl]. now intros kv [_ H].
  - eapply List.Forall_impl; [|exact Hf]. now intros kv [_ H].
  - eapply List.Forall_impl; [|exact Hp]. intros kc (_ & Hne & Hc).
    split; [exact Hne|]. eapply List.Forall_impl; [|exact Hc]. now intros kv [_ H].
Qed.

Lemma ann_model_valid : valid_model ann_model.
Proof.
  constructor; simpl.
  - repeat constructor; discriminate.
  - repeat constructor.
  - repeat constructor.
  - intros x Hx. apply elem_of_singleton in Hx. subst. split; reflexivity.
  - intros x Hx. set_unfold in Hx. destruct Hx as [[->| ->]| ->]; split; reflexivity.
  - intros x Hx. set_unfold in Hx. destruct Hx as [->| ->]; split; reflexivity.
Qed.

(** ** Determinism of the trainer *)

Lemma analyze_pair_same (name : string) (s1 s2 : NameGenerator) (i : nat)
    (s1' : NameGenerator) :
  same_model s1 s2 -> analyze_pair name s1 i = Ret s1' ->
  exists s2', analyze_pair name s2 i = Ret s2' /\ same_model s1' s2'.
Proof.
  intros (H1 & H2 & H3 & H4 & H5 & H6). unfold analyze_pair.
  destruct (str_index name i) as [a| |]; simpl; try discriminate.
  destruct (str_index name (i + 1)) as [b| |]; simpl; try discriminate.
  intros [= <-]. eexists. split; [reflexivity|].
  unfold same_model; simpl. rewrite H1, H5. auto 10.
Qed.

Lemma analyze_name_same (s1 s2 : NameGenerator) (name : string)
    (s1' : NameGenerator) :
  same_model s1 s2 -> analyze_name s1 name = Ret s1' ->
  exists s2', analyze_name s2 name = Ret s2' /\ same_model s1' s2'.
Proof.
  intros (H1 & H2 & H3 & H4 & H5 & H6). unfold analyze_name.
  destruct (str_index name 0) as [c0| |]; simpl; try discriminate.
  apply foldO_rel.
  - intros t1 t2 i t1'. apply analyze_pair_same.
  - unfold same_model; simpl. rewrite H1, H2, H3, H4, H5, H6. auto 10.
Qed.

(** C9. Training is deterministic: two runs of the trainer on fresh objects
    over the same corpus both complete, and the six statistics they build
    are equal, whatever the names of the two corpus files and whatever
    else the two file systems hold. *)
Theorem trainer_deterministic (fs1 fs2 : filesystem) (f1 f2 : string)
    (file : list string) :
  fs1 f1 = Some file -> fs2 f2 = Some file ->
  exists m1 m2,
    _analyze_names fs1 (init_fields f1) = Ret m1
    /\ _analyze_names fs2 (init_fields f2) = Ret m2
    /\ same_model m1 m2.
Proof.
  intros Hf1 Hf2.
  destruct (analyze_names_inv fs1 (init_fields f1) file Hf1 (init_fields_inv f1))
    as (m1 & Hm1 & _).
  exists m1. unfold _analyze_names in *. simpl in *. rewrite Hf1 in Hm1. rewrite Hf1, Hf2.
  destruct (foldO_rel same_model analyze_name (retained_names file) analyze_name_same
              (init_fields f1) (init_fields f2) m1) as (m2 & Hm2 & Hsame).
  - unfold same_model. simpl. auto 10.
  - exact Hm1.
  - exists m2. auto.
Qed.

Lemma trainer_deterministic_witness :
  exists m1 m2,
    _analyze_names (corpus_fs "european.txt" ann_corpus) (init_fields "european.txt")
      = Ret m1
    /\ _analyze_names (corpus_fs "names.txt" ann_corpus) (init_fields "names.txt")
      = Ret m2
    /\ same_model m1 m2.
Proof.
  apply (trainer_deterministic (corpus_fs "european.txt" ann_corpus)
           (corpus_fs "names.txt" ann_corpus) "european.txt" "names.txt" ann_corpus);
    reflexivity.
Defined.

(** ** The sets of digrams and trigrams *)





(** ** The empty corpus *)

Lemma analyze_names_empty (fs : filesystem) (self : NameGenerator)
    (file : list string) :
  fs (name_file self) = Some file -> retained_names file = [] ->
  _analyze_names fs self = Ret self.
Proof. intros Hfs Hre. unfold _analyze_names. now rewrite Hfs, Hre. Qed.

Lemma random_name_empty_raises (self : NameGenerator) (noise : Q) (fuel : nat)
    (t : tape) (p : nat) :
  length_distribution self = [] ->
  random_name (S fuel) self noise t p = Raise ValueError.
Proof.
  intros He. cbn [random_name]. unfold random_name_pass, bindM. now rewrite He.
Qed.

(** C4, as the code has it. When no name is retained the trainer raises
    nothing: it returns the object with its six fields still empty.  A
    weighted draw over an empty distribution does not proceed, it raises
    [ValueError], and so does every call of [random_name] on that model. *)
Theorem empty_corpus_behaviour (fs : filesystem) (file_name : string)
    (file : list string) :
  fs file_name = Some file -> retained_names file = [] ->
  _analyze_names fs (init_fields file_name) = Ret (init_fields file_name)
  /\ (forall (K : Type) (t : tape) (p : nat),
        @_weighted_random_choice K [] t p = Raise ValueError)
  /\ (forall noise fuel t p,
        random_name (S fuel) (init_fields file_name) noise t p = Raise ValueError).
Proof.
  intros Hfs Hre. split; [|split].
  - now apply analyze_names_empty with (file := file).
  - intros K t p. reflexivity.
  - intros noise fuel t p. now apply random_name_empty_raises.
Qed.

Lemma empty_corpus_behaviour_witness :
  _analyze_names (corpus_fs "names.txt" blank_corpus) (init_fields "names.txt")
    = Ret (init_fields "names.txt")
  /\ (forall (K : Type) (t : tape) (p : nat),
        @_weighted_random_choice K [] t p = Raise ValueError)
  /\ (forall noise fuel t p,
        random_name (S fuel) (init_fields "names.txt") noise t p = Raise ValueError).
Proof.
  apply (empty_corpus_behaviour (corpus_fs "names.txt" blank_corpus) "names.txt"
           blank_corpus); reflexivity.
Defined.

(** C4 as claimed fails: on a corpus without a retained name the trainer
    completes and raises no error at all. *)
Lemma empty_corpus_no_error :
  retained_names blank_corpus = []
  /\ train blank_corpus = Ret (init_fields "names.txt")
  /\ forall e, train blank_corpus <> Raise e.
Proof.
  split; [reflexivity|]. split; [reflexivity|]. intros e. discriminate.
Qed.

(** ** Modeled draws at noise 0 *)

Lemma generate_next_char_noise0 (self : NameGenerator) (name : string)
    (length : nat) (t : tape) (p : nat) :
  _generate_next_char self name length 0 t p
  = next_char_loop 100 self name length false 0 t (S p).
Proof.
  unfold _generate_next_char. destruct (random_ret t p) as (u & Hu & Hpos).
  rewrite (bindM_ret _ _ _ _ _ _ Hu). now rewrite (Qltb_zero u Hpos).
Qed.

Lemma candidate_modeled (self : NameGenerator) (name : string) (t : tape)
    (q : nat) (l : ascii) (cnt : list (ascii * nat)) :
  str_last name = Ret l -> dict_get l (letter_pairs self) = Some cnt ->
  candidate self name false t q = _weighted_random_choice cnt t q.
Proof.
  intros Hl Hd. unfold candidate, bindM, liftO. rewrite Hl. simpl. now rewrite Hd.
Qed.

(** When every key of the counter in effect passes the checks, the first
    candidate is returned. *)
Lemma generate_next_char_all_pass (self : NameGenerator) (name : string)
    (length : nat) (t : tape) (p : nat) (l : ascii) (cnt : list (ascii * nat)) :
  str_last name = Ret l -> dict_get l (letter_pairs self) = Some cnt ->
  cnt <> [] -> counts_positive cnt ->
  (forall c, In c (List.map fst cnt) -> rejected self name length c = Ret false) ->
  exists c, In c (List.map fst cnt)
            /\ _generate_next_char self name length 0 t p = Ret (c, S (S p)).
Proof.
  intros Hl Hd Hne Hpos Hall. rewrite generate_next_char_noise0.
  destruct (weighted_total cnt t (S p) Hne Hpos) as (c & Hc).
  pose proof (weighted_ret _ _ _ _ _ Hc) as [_ Hin].
  exists c. split; [exact Hin|].
  apply next_char_loop_first; [lia|]. split.
  - now rewrite (candidate_modeled _ _ _ _ _ _ Hl Hd).
  - now apply Hall.
Qed.

(** When no key of the counter in effect passes the checks, only the
    fallback vowel can be returned. *)
Lemma generate_next_char_modeled_cases (self : NameGenerator) (name : string)
    (length : nat) (t : tape) (p : nat) (l : ascii) (cnt : list (ascii * nat))
    (c : ascii) (p' : nat) :
  str_last name = Ret l -> dict_get l (letter_pairs self) = Some cnt ->
  _generate_next_char self name length 0 t p = Ret (c, p') ->
  (In c (List.map fst cnt) /\ rejected self name length c = Ret false)
  \/ is_vowel c = true.
Proof.
  intros Hl Hd H. apply generate_next_char_cases in H.
  destruct H as [(u & q & Hu & Hcand & Hrej) | H]; [left | now right].
  destruct (random_ret t p) as (u' & Hu' & Hpos). rewrite Hu' in Hu.
  injection Hu as <-. rewrite (Qltb_zero _ Hpos) in *.
  rewrite (candidate_modeled _ _ _ _ _ _ Hl Hd) in Hcand.
  apply weighted_ret in Hcand. tauto.
Qed.

Lemma is_vowel_cases (c : ascii) :
  is_vowel c = true -> In c ["a"; "e"; "i"; "o"; "u"]%char.
Proof.
  unfold is_vowel. intros H. apply bool_decide_eq_true_1 in H.
  now apply list_elem_of_In.
Qed.

(** ** Failure and divergence of [random_name] *)

Lemma train_bcd : train bcd_corpus = Ret bcd_model.
Proof. vm_compute. reflexivity. Qed.

Lemma bcd_pass (t : tape) (p : nat) :
  random_name_pass bcd_model 0 t p = Ret ("bcd", p + 6).
Proof.
  unfold random_name_pass.
  rewrite (bindM_ret _ _ _ _ _ _ (weighted_single 3 1 t p (le_n 1))).
  change (first_letter_distribution bcd_model) with [("b"%char, 1)].
  rewrite (bindM_ret _ _ _ _ _ _ (weighted_single "b"%char 1 t (S p) (le_n 1))).
  change (3 - 1) with 2. cbn [for_range].
  destruct (generate_next_char_all_pass bcd_model "b" 3 t (S (S p))
              "b"%char [("c"%char, 1)]) as (c1 & Hin1 & H1);
    [reflexivity | reflexivity | discriminate | repeat constructor | |].
  { intros c [<-|[]]. vm_compute. reflexivity. }
  destruct Hin1 as [<-|[]]. simpl fst in H1.
  rewrite (bindM_ret _ _ _ _ _ _ (bindM_ret _ _ _ _ _ _ H1)).
  unfold retM at 1. change (Py.char_str "b" ++ Py.char_str "c") with "bc".
  destruct (generate_next_char_all_pass bcd_model "bc" 3 t (S (S (S (S p))))
              "c"%char [("d"%char, 1)]) as (c2 & Hin2 & H2);
    [reflexivity | reflexivity | discriminate | repeat constructor | |].
  { intros c [<-|[]]. vm_compute. reflexivity. }
  destruct Hin2 as [<-|[]]. simpl fst in H2.
  rewrite (bindM_ret _ _ _ _ _ _ (bindM_ret _ _ _ _ _ _ H2)).
  unfold retM. repeat f_equal. lia.
Qed.

Lemma bcd_diverges (fuel : nat) :
  forall (t : tape) (p : nat), random_name fuel bcd_model 0 t p = Timeout.
Proof.
  induction fuel as [|fuel IH]; intros t p; [reflexivity|].
  cbn [random_name]. rewrite (bindM_ret _ _ _ _ _ _ (bcd_pass t p)).
  change (has_vowel "bcd") with false. cbv iota. apply IH.
Qed.

(** C5 as claimed fails twice.  On the model of an empty corpus every call
    raises [ValueError]; on the model of the corpus ["bcd"] the call with
    noise 0 rebuilds "bcd" on every pass whatever the draws, and is still
    looping after any number of passes. *)
Lemma random_name_fails_or_loops :
  (train [] = Ret (init_fields "names.txt")
   /\ forall noise fuel t p,
        random_name (S fuel) (init_fields "names.txt") noise t p = Raise ValueError)
  /\ (train bcd_corpus = Ret bcd_model
      /\ forall fuel t p, random_name fuel bcd_model 0 t p = Timeout).
Proof.
  split; split.
  - reflexivity.
  - intros. now apply random_name_empty_raises.
  - exact train_bcd.
  - intros. apply bcd_diverges.
Qed.

Lemma random_name_no_raise (self : NameGenerator) (noise : Q) (t : tape) :
  (forall p, exists name p', random_name_pass self noise t p = Ret (name, p')) ->
  forall fuel p e, random_name fuel self noise t p <> Raise e.
Proof.
  intros Hpass. induction fuel as [|fuel IH]; intros p e; [discriminate|].
  cbn [random_name]. destruct (Hpass p) as (name & p' & Hp).
  rewrite (bindM_ret _ _ _ _ _ _ Hp). destruct (has_vowel name); [discriminate|].
  apply IH.
Qed.

(** C5, as the code has it.  On the model of a corpus with at least one
    retained name, and for every noise and every tape of draws,
    [random_name] raises no error and every pass of its loop completes with
    a candidate name.  After a pass whose name holds no vowel the loop goes
    on from the cursor that this pass left, and the call returns,
    capitalised, the name of the first pass that holds a vowel: after [k]
    passes without one, fuel for more than [k] passes gives that result and
    less fuel leaves the call in its loop.  Nothing bounds the number of
    passes: whatever the fuel, the call has either returned so or is still
    looping. *)
Theorem random_name_never_raises (fs : filesystem) (file_name : string)
    (file : list string) (self : NameGenerator) (noise : Q) (t : tape) :
  fs file_name = Some file -> retained_names file <> [] ->
  _analyze_names fs (init_fields file_name) = Ret self ->
  (forall fuel p e, random_name fuel self noise t p <> Raise e)
  /\ (forall p, exists name p', random_name_pass self noise t p = Ret (name, p'))
  /\ (forall k p q name p' fuel,
        vowelless_passes self noise t k p q ->
        random_name_pass self noise t q = Ret (name, p') ->
        has_vowel name = true -> k < fuel ->
        random_name fuel self noise t p = Ret (Py.capitalize name, p'))
  /\ (forall k p q fuel,
        vowelless_passes self noise t k p q -> fuel <= k ->
        random_name fuel self noise t p = Timeout)
  /\ (forall fuel p,
        (exists k q name p',
           k < fuel /\ vowelless_passes self noise t k p q
           /\ random_name_pass self noise t q = Ret (name, p')
           /\ has_vowel name = true
           /\ random_name fuel self noise t p = Ret (Py.capitalize name, p'))
        \/ (exists q, vowelless_passes self noise t fuel p q
                      /\ random_name fuel self noise t p = Timeout)).
Proof.
  intros Hfs Hne Hrun.
  assert (Hinv : trained_inv self) by (apply trained_has_inv; now exists fs, file_name).
  destruct (analyze_names_nonempty fs (init_fields file_name) self file Hfs
              (init_fields_inv file_name) Hne Hrun) as [Hf Hl].
  assert (Hpass : forall p, exists name p', random_name_pass self noise t p = Ret (name, p')).
  { intros p. apply random_name_pass_total; auto; apply Hinv. }
  split; [now apply random_name_no_raise|]. split; [exact Hpass|].
  split; [|split].
  - intros k p q name p' fuel Hvp Hq Hv Hk.
    now apply (random_name_after_passes _ _ _ _ _ _ Hvp).
  - intros k p q fuel Hvp Hk. now apply (random_name_still_looping _ _ _ _ _ _ Hvp).
  - now apply random_name_dichotomy.
Qed.

Lemma random_name_never_raises_witness :
  random_name 2 bc_ab_model 0 tape_cell5 0 = Ret ("Ab", 8)
  /\ random_name 1 bc_ab_model 0 tape_cell5 0 = Timeout.
Proof.
  destruct (random_name_never_raises (corpus_fs "names.txt" bc_ab_corpus)
              "names.txt" bc_ab_corpus bc_ab_model 0 tape_cell5)
    as (_ & _ & Hret & Hloop & _).
  - reflexivity.
  - discriminate.
  - vm_compute. reflexivity.
  - split.
    + apply (Hret 1 0 4 "ab" 8 2 bc_ab_first_pass);
        [vm_compute; reflexivity | reflexivity | lia].
    + apply (Hloop 1 0 4 1 bc_ab_first_pass). lia.
Defined.

(** ** Valid models and the return of [random_name] *)

Lemma bcd_model_valid : valid_model bcd_model.
Proof.
  constructor; simpl.
  - repeat constructor; discriminate.
  - repeat constructor.
  - repeat constructor.
  - intros x Hx. apply elem_of_singleton in Hx. subst. split; reflexivity.
  - intros x Hx. apply elem_of_singleton in Hx. subst. split; reflexivity.
  - intros x Hx. apply elem_of_singleton in Hx. subst. split; reflexivity.
Qed.

Lemma bc_ab_model_valid : valid_model bc_ab_model.
Proof.
  constructor; simpl.
  - repeat constructor; discriminate.
  - repeat constructor.
  - repeat constructor.
  - intros x Hx. set_unfold in Hx. destruct Hx as [->| ->]; split; reflexivity.
  - intros x Hx. set_solver.
  - intros x Hx. set_unfold in Hx. destruct Hx as [->| ->]; split; reflexivity.
Qed.

Lemma init_fields_valid (file_name : string) : valid_model (init_fields file_name).
Proof.
  constructor; simpl; try apply List.Forall_nil; intros x Hx; set_solver.
Qed.

Lemma upper_char_ord (c : ascii) :
  Py.islower c = true -> Py.ord (Py.upper_char c) + 32 = Py.ord c.
Proof. each_char c; vm_compute; congruence. Qed.

Lemma islower_not_sharp_s (c : ascii) : Py.islower c = true -> (Py.ord c =? 223) = false.
Proof. each_char c; vm_compute; congruence. Qed.

(** Capitalising a name of lowercase letters changes its first letter
    only. *)
Lemma capitalize_lowercase (first : ascii) (rest : string) :
  Py.islower first = true -> str_forall Py.islower rest = true ->
  Py.capitalize (String first rest) = String (Py.upper_char first) rest.
Proof.
  intros Hf Hr. unfold Py.capitalize.
  now rewrite (islower_not_sharp_s first Hf), (lower_fixed rest Hr).
Qed.

(** A distribution without keys makes every call raise. *)
Lemma random_name_raises (self : NameGenerator) (noise : Q) (fuel : nat)
    (t : tape) (p : nat) :
  counts_positive (length_distribution self) ->
  length_distribution self = [] \/ first_letter_distribution self = [] ->
  random_name (S fuel) self noise t p = Raise ValueError.
Proof.
  intros Hpos [He|He]; [now apply random_name_empty_raises|].
  destruct (length_distribution self) as [|kv d] eqn:El;
    [now apply random_name_empty_raises|].
  destruct (weighted_total (kv :: d) t p ltac:(discriminate) Hpos) as (L & HL).
  cbn [random_name]. unfold random_name_pass. rewrite El.
  unfold bindM at 1. unfold bindM at 1. rewrite HL.
  unfold bindM at 1. now rewrite He.
Qed.

(** C8 as claimed fails: the invariants of the data model do not make the
    call return.  The model of the corpus ["bcd"] satisfies them, and with
    noise 0 every pass of the call rebuilds "bcd", which holds no vowel, so
    the call is still looping after any number of passes.  The model
    without any entry satisfies them as well, and every call on it raises
    [ValueError]. *)
Lemma valid_model_without_return :
  (valid_model bcd_model
   /\ forall fuel t p, random_name fuel bcd_model 0 t p = Timeout)
  /\ (valid_model (init_fields "names.txt")
      /\ forall noise fuel t p,
           random_name (S fuel) (init_fields "names.txt") noise t p
           = Raise ValueError).
Proof.
  split; split.
  - exact bcd_model_valid.
  - intros. apply bcd_diverges.
  - apply init_fields_valid.
  - intros. now apply random_name_empty_raises.
Qed.

(** C8, as the code has it.  On a valid model every string that
    [random_name] returns is the name of the first pass that holds a vowel,
    the passes following one another on the tape; this name is a lowercase
    letter followed by lowercase letters, and the string returned is the
    name with its first letter replaced by its capital, the letter 32 code
    points below, and all other characters as they were.  After [k] passes
    without a vowel and one with a vowel the call returns so when it is
    given more than [k] passes, and is still looping otherwise.  When the
    two top-level distributions are not empty every pass completes with
    such a name; when one of them is empty every call raises
    [ValueError]. *)
Theorem random_name_capitalized (self : NameGenerator) (noise : Q) (t : tape) :
  valid_model self ->
  (forall fuel p s p',
     random_name fuel self noise t p = Ret (s, p') ->
     exists k q first rest,
       k < fuel /\ vowelless_passes self noise t k p q
       /\ random_name_pass self noise t q = Ret (String first rest, p')
       /\ has_vowel (String first rest) = true
       /\ s = String (Py.upper_char first) rest
       /\ Py.islower first = true
       /\ Py.isupper (Py.upper_char first) = true
       /\ Py.ord (Py.upper_char first) + 32 = Py.ord first
       /\ str_forall Py.islower rest = true)
  /\ (forall k p q first rest p' fuel,
        vowelless_passes self noise t k p q ->
        random_name_pass self noise t q = Ret (String first rest, p') ->
        has_vowel (String first rest) = true -> k < fuel ->
        random_name fuel self noise t p
        = Ret (String (Py.upper_char first) rest, p'))
  /\ (forall k p q fuel,
        vowelless_passes self noise t k p q -> fuel <= k ->
        random_name fuel self noise t p = Timeout)
  /\ (length_distribution self <> [] -> first_letter_distribution self <> [] ->
      forall p, exists first rest p',
        random_name_pass self noise t p = Ret (String first rest, p')
        /\ Py.islower first = true /\ str_forall Py.islower rest = true)
  /\ (length_distribution self = [] \/ first_letter_distribution self = [] ->
      forall fuel p, random_name (S fuel) self noise t p = Raise ValueError).
Proof.
  intros Hv. destruct (valid_model_usable self Hv) as (Hl & Hf & Hp).
  split; [|split; [|split; [|split]]].
  - intros fuel p s p' H.
    apply random_name_ret_passes in H.
    destruct H as (k & q & name & Hk & Hvp & Hpass & Hvow & ->).
    destruct (random_name_pass_lower _ _ _ _ _ _ Hv Hpass)
      as (first & rest & -> & Hfl & Hr).
    exists k, q, first, rest. repeat split; auto.
    + now apply capitalize_lowercase.
    + now apply upper_char_of_lower.
    + now apply upper_char_ord.
  - intros k p q first rest p' fuel Hvp Hpass Hvow Hk.
    destruct (random_name_pass_lower _ _ _ _ _ _ Hv Hpass)
      as (first' & rest' & [= <- <-] & Hfl & Hr).
    rewrite <- (capitalize_lowercase first rest Hfl Hr).
    now apply (random_name_after_passes _ _ _ _ _ _ Hvp).
  - intros k p q fuel Hvp Hk. now apply (random_name_still_looping _ _ _ _ _ _ Hvp).
  - intros Hln Hfn p.
    destruct (random_name_pass_total self noise t p Hl Hf Hp Hln Hfn)
      as (name & p' & Hpass).
    destruct (random_name_pass_lower _ _ _ _ _ _ Hv Hpass)
      as (first & rest & -> & Hfl & Hr).
    exists first, rest, p'. auto.
  - intros He fuel p. now apply random_name_raises.
Qed.

Lemma random_name_capitalized_witness :
  random_name 2 bc_ab_model 0 tape_cell5 0 = Ret ("Ab", 8)
  /\ exists k q first rest,
       k < 2 /\ vowelless_passes bc_ab_model 0 tape_cell5 k 0 q
       /\ random_name_pass bc_ab_model 0 tape_cell5 q = Ret (String first rest, 8)
       /\ has_vowel (String first rest) = true
       /\ "Ab" = String (Py.upper_char first) rest
       /\ Py.islower first = true
       /\ Py.isupper (Py.upper_char first) = true
       /\ Py.ord (Py.upper_char first) + 32 = Py.ord first
       /\ str_forall Py.islower rest = true.
Proof.
  split; [vm_compute; reflexivity|].
  apply (proj1 (random_name_capitalized bc_ab_model 0 tape_cell5 bc_ab_model_valid)
           2 0 "Ab" 8).
  vm_compute. reflexivity.
Defined.

(** ** The cap of the inner loop *)

Lemma choices_no_timeout {A} (population : list A) (weights : list nat)
    (t : tape) (p : nat) :
  random.choices population weights t p <> Timeout.
Proof.
  unfold random.choices. destruct (negb _); [discriminate|].
  destruct (List.last _ _); [|discriminate].
  destruct (_ =? _)%N; [discriminate|]. destruct (nth_error _ _); discriminate.
Qed.

Lemma weighted_no_timeout {K} (d : list (K * nat)) (t : tape) (p : nat) :
  _weighted_random_choice d t p <> Timeout.
Proof. destruct d; [discriminate | apply choices_no_timeout]. Qed.

Lemma choice_no_timeout (seq : string) (t : tape) (p : nat) :
  random.choice seq t p <> Timeout.
Proof.
  unfold random.choice. destruct (Py.len seq); [discriminate|].
  destruct (String.get _ _); discriminate.
Qed.

Lemma str_index_no_timeout (s : string) (i : nat) : str_index s i <> Timeout.
Proof. unfold str_index. destruct (String.get i s); discriminate. Qed.

Lemma str_last_no_timeout (s : string) : str_last s <> Timeout.
Proof.
  unfold str_last. destruct (Py.len s); [discriminate | apply str_index_no_timeout].
Qed.

Lemma candidate_no_timeout (self : NameGenerator) (name : string)
    (use_random : bool) (t : tape) (p : nat) :
  candidate self name use_random t p <> Timeout.
Proof.
  unfold candidate. destruct use_random; [apply choice_no_timeout|].
  unfold bindM, liftO. pose proof (str_last_no_timeout name) as Hl.
  destruct (str_last name) as [l| |]; simpl; [|discriminate|congruence].
  apply weighted_no_timeout.
Qed.

Lemma rejected_no_timeout (self : NameGenerator) (name : string) (length : nat)
    (c : ascii) :
  rejected self name length c <> Timeout.
Proof.
  unfold rejected.
  pose proof (str_index_no_timeout name 0) as H0.
  pose proof (str_last_no_timeout name) as Hl.
  destruct (Py.len name =? 1).
  - destruct (str_index name 0); simpl; [|discriminate|congruence].
    destruct (negb _); [discriminate|]. destruct (_ && _); [discriminate|].
    destruct (_ <=? _); [|discriminate].
    destruct (str_last name); simpl; [discriminate|discriminate|congruence].
  - simpl. destruct (_ && _); [discriminate|].
    destruct (_ <=? _); [|discriminate].
    destruct (str_last name); simpl; [discriminate|discriminate|congruence].
Qed.

(** A hundred rounds are all the loop can make. *)
Lemma next_char_loop_no_timeout (self : NameGenerator) (name : string)
    (length : nat) (use_random : bool) (t : tape) :
  forall fuel counter p, 100 <= counter + fuel -> 1 <= fuel ->
  next_char_loop fuel self name length use_random counter t p <> Timeout.
Proof.
  induction fuel as [|fuel IH]; intros counter p Hf H1; [lia|].
  cbn [next_char_loop]. destruct (100 <=? counter + 1) eqn:E.
  - apply choice_no_timeout.
  - apply Nat.leb_gt in E. unfold bindM at 1.
    pose proof (candidate_no_timeout self name use_random t p) as Hc.
    destruct (candidate self name use_random t p) as [[c q]| |];
      [|discriminate|congruence].
    unfold bindM, liftO.
    pose proof (rejected_no_timeout self name length c) as Hr.
    destruct (rejected self name length c) as [[|]| |]; simpl;
      [apply IH; lia | discriminate | discriminate | congruence].
Qed.

(** C3, as the code has it. A call of [_generate_next_char] finishes within
    its hundred rounds.  It draws at most 99 candidates: round [counter]
    = 100 draws none and returns the fallback.  So a returned character is
    either the first candidate that passed, after fewer than 99 rejected
    ones, or the fallback vowel, read right after the 99 candidates at
    cursors [p + 1] to [p + 99] were each rejected. *)
Theorem generate_next_char_attempts (self : NameGenerator) (name : string)
    (length : nat) (noise : Q) (t : tape) (p : nat) (c : ascii) (p' : nat) :
  _generate_next_char self name length noise t p = Ret (c, p') ->
  (forall self' name' length' noise' t' q,
     _generate_next_char self' name' length' noise' t' q <> Timeout)
  /\ exists u, random.random t p = Ret (u, S p)
     /\ ((exists k, k < 99 /\ p' = p + 1 + k + 1
            /\ attempt_passes self name length (Qltb u noise) t (p + 1 + k) c
            /\ forall j, j < k ->
                 attempt_fails self name length (Qltb u noise) t (p + 1 + j))
         \/ (p' = p + 101
             /\ random.choice "aeiou" t (p + 100) = Ret (c, p')
             /\ is_vowel c = true
             /\ forall j, j < 99 ->
                  attempt_fails self name length (Qltb u noise) t (p + 1 + j))).
Proof.
  intros H. split.
  - intros self' name' length' noise' t' q. unfold _generate_next_char.
    destruct (random_ret t' q) as (u & Hu & _). rewrite (bindM_ret _ _ _ _ _ _ Hu).
    apply next_char_loop_no_timeout; lia.
  - unfold _generate_next_char in H.
    destruct (random_ret t p) as (u & Hu & _). rewrite (bindM_ret _ _ _ _ _ _ Hu) in H.
    exists u. split; [exact Hu|].
    apply next_char_loop_spec in H.
    destruct H as [(k & Hk & -> & Hpass & Hfail) | (-> & Hc & Hfail)].
    + left. exists k. replace (p + 1 + k) with (S p + k) by lia.
      split; [lia|]. split; [lia|]. split; [exact Hpass|].
      intros j Hj. replace (p + 1 + j) with (S p + j) by lia. now apply Hfail.
    + right. replace (p + 100) with (S p + (99 - 0)) by lia.
      split; [lia|]. split; [exact Hc|]. split.
      * apply choice_ret in Hc. destruct Hc as [_ Hin]. simpl in Hin.
        repeat (destruct Hin as [<-|Hin]; [reflexivity|]). destruct Hin.
      * intros j Hj. replace (p + 1 + j) with (S p + j) by lia. apply Hfail. lia.
Qed.

Lemma generate_next_char_attempts_witness :
  _generate_next_char ann_model "ana" 4 0 tape_cell100 0 = Ret ("e"%char, 101)
  /\ exists u, random.random tape_cell100 0 = Ret (u, 1)
     /\ ((exists k, k < 99 /\ 101 = 0 + 1 + k + 1
            /\ attempt_passes ann_model "ana" 4 (Qltb u 0) tape_cell100 (0 + 1 + k) "e"
            /\ forall j, j < k ->
                 attempt_fails ann_model "ana" 4 (Qltb u 0) tape_cell100 (0 + 1 + j))
         \/ (101 = 0 + 101
             /\ random.choice "aeiou" tape_cell100 (0 + 100) = Ret ("e"%char, 101)
             /\ is_vowel "e" = true
             /\ forall j, j < 99 ->
                  attempt_fails ann_model "ana" 4 (Qltb u 0) tape_cell100 (0 + 1 + j))).
Proof.
  split; [vm_compute; reflexivity|].
  apply (generate_next_char_attempts ann_model "ana" 4 0 tape_cell100 0 "e" 101).
  vm_compute. reflexivity.
Defined.

(** C3 as claimed fails: the fallback vowel 'e' comes back at cursor 101,
    after one draw for the mode, 99 rejected candidates and the draw of the
    vowel from cell 100.  A hundredth candidate would have been read from
    cell 100 (it is 'n'), and the vowel from cell 101 (it is 'a'). *)
Lemma fallback_after_99_candidates :
  _generate_next_char ann_model "ana" 4 0 tape_cell100 0 = Ret ("e"%char, 101)
  /\ candidate ann_model "ana" false tape_cell100 100 = Ret ("n"%char, 101)
  /\ random.choice "aeiou" tape_cell100 101 = Ret ("a"%char, 102)
  /\ 101 <> 1 + 100 + 1.
Proof.
  split; [vm_compute; reflexivity|]. split; [vm_compute; reflexivity|].
  split; [vm_compute; reflexivity|]. lia.
Qed.

(** ** The corpus "ann", "anna", "ana" *)

(** C2, as the trainer computes it. The model of ["ann"; "anna"; "ana"] has
    the first letters {'a': 3}, the lengths {3: 2, 4: 1}, the start digram
    "an", the end digrams "nn" and "na", the trigrams "ann", "nna" and
    "ana", the transitions {'n': 3} from 'a', and from 'n' the transitions
    {'n': 2, 'a': 2}: "nn" occurs in "ann" and in "anna". *)
Theorem ann_model_statistics :
  exists m, train ann_corpus = Ret m
    /\ first_letter_distribution m = [("a"%char, 3)]
    /\ length_distribution m = [(3, 2); (4, 1)]
    /\ first_two_letter_digrams m = {[ "an" ]}
    /\ last_two_letter_digrams m = {[ "nn"; "na" ]}
    /\ trigrams m = {[ "ann"; "nna"; "ana" ]}
    /\ dict_get "a"%char (letter_pairs m) = Some [("n"%char, 3)]
    /\ dict_get "n"%char (letter_pairs m) = Some [("n"%char, 2); ("a"%char, 2)]
    /\ List.map fst (letter_pairs m) = ["a"; "n"]%char.
Proof.
  exists ann_model. split; [exact train_ann|]. repeat split; reflexivity.
Qed.

(** C2 as claimed fails: the count of 'n' after 'n' is 2, not 1. *)
Lemma ann_model_nn_count :
  exists m cnt, train ann_corpus = Ret m
    /\ dict_get "n"%char (letter_pairs m) = Some cnt
    /\ dict_get "n"%char cnt = Some 2
    /\ dict_get "n"%char cnt <> Some 1.
Proof.
  exists ann_model, [("n"%char, 2); ("a"%char, 2)].
  split; [exact train_ann|]. split; [reflexivity|]. split; [reflexivity|].
  discriminate.
Qed.

Lemma body_step (self : NameGenerator) (length : nat) (noise : Q) (name : string)
    (t : tape) (q : nat) (name' : string) (q' : nat) :
  bindM (_generate_next_char self name length noise)
    (fun c => retM (name ++ Py.char_str c)) t q = Ret (name', q') ->
  exists c, _generate_next_char self name length noise t q = Ret (c, q')
            /\ name' = name ++ Py.char_str c.
Proof. intros H. inv_bind H. injection H as <- <-. eauto. Qed.

Lemma ann_second (L : nat) (t : tape) (q : nat) (c : ascii) (q' : nat) :
  In L [3; 4] ->
  _generate_next_char ann_model "a" L 0 t q = Ret (c, q') -> c = "n"%char.
Proof.
  intros HL H.
  destruct (generate_next_char_all_pass ann_model "a" L t q "a"%char [("n"%char, 3)])
    as (c' & Hin & H');
    [reflexivity | reflexivity | discriminate | repeat constructor | |].
  - intros x [<-|[]]. destruct HL as [<-|[<-|[]]]; vm_compute; reflexivity.
  - rewrite H' in H. injection H as <- _. now destruct Hin as [<-|[]].
Qed.

Lemma ann_third (L : nat) (t : tape) (q : nat) (c : ascii) (q' : nat) :
  In L [3; 4] ->
  _generate_next_char ann_model "an" L 0 t q = Ret (c, q') ->
  c = "n"%char \/ c = "a"%char.
Proof.
  intros HL H.
  destruct (generate_next_char_all_pass ann_model "an" L t q "n"%char
              [("n"%char, 2); ("a"%char, 2)]) as (c' & Hin & H');
    [reflexivity | reflexivity | discriminate | repeat constructor | |].
  - intros x [<-|[<-|[]]]; destruct HL as [<-|[<-|[]]]; vm_compute; reflexivity.
  - rewrite H' in H. injection H as <- _.
    destruct Hin as [<-|[<-|[]]]; auto.
Qed.

Lemma ann_fourth (name : string) (t : tape) (q : nat) (c : ascii) (q' : nat) :
  name = "ann" \/ name = "ana" ->
  _generate_next_char ann_model name 4 0 t q = Ret (c, q') ->
  is_vowel c = true.
Proof.
  intros [-> | ->] H.
  - apply (generate_next_char_modeled_cases ann_model "ann" 4 t q "n"%char
             [("n"%char, 2); ("a"%char, 2)]) in H; [|reflexivity|reflexivity].
    destruct H as [[Hin Hrej] | H]; [|exact H].
    destruct Hin as [<-|[<-|[]]]; [|reflexivity].
    vm_compute in Hrej. discriminate.
  - apply (generate_next_char_modeled_cases ann_model "ana" 4 t q "a"%char
             [("n"%char, 3)]) in H; [|reflexivity|reflexivity].
    destruct H as [[Hin Hrej] | H]; [|exact H].
    destruct Hin as [<-|[]]. vm_compute in Hrej. discriminate.
Qed.

Lemma ann_pass_names (t : tape) (p : nat) (name : string) (p' : nat) :
  random_name_pass ann_model 0 t p = Ret (name, p') ->
  In (Py.capitalize name) ann_names.
Proof.
  unfold random_name_pass. intros H. inv_bind H. rename a into L.
  apply weighted_ret in Ha. destruct Ha as [_ HL].
  change (List.map fst (length_distribution ann_model)) with [3; 4] in HL.
  inv_bind H. apply weighted_ret in Ha. destruct Ha as [_ Hfirst].
  destruct Hfirst as [<-|[]]. simpl fst in H.
  change (Py.char_str "a") with "a" in H.
  assert (HL' := HL). destruct HL' as [<-|[<-|[]]].
  - change (3 - 1) with 2 in H. cbn [for_range] in H.
    inv_bind H. apply body_step in Ha. destruct Ha as (c1 & Hc1 & ->).
    apply (ann_second 3 _ _ _ _ HL) in Hc1. subst c1.
    inv_bind H. apply body_step in Ha. destruct Ha as (c2 & Hc2 & ->).
    apply (ann_third 3 _ _ _ _ HL) in Hc2.
    injection H as <- _.
    destruct Hc2 as [-> | ->]; vm_compute; tauto.
  - change (4 - 1) with 3 in H. cbn [for_range] in H.
    inv_bind H. apply body_step in Ha. destruct Ha as (c1 & Hc1 & ->).
    apply (ann_second 4 _ _ _ _ HL) in Hc1. subst c1.
    inv_bind H. apply body_step in Ha. destruct Ha as (c2 & Hc2 & ->).
    apply (ann_third 4 _ _ _ _ HL) in Hc2.
    inv_bind H. apply body_step in Ha. destruct Ha as (c3 & Hc3 & ->).
    injection H as <- _.
    assert (Hv : is_vowel c3 = true).
    { eapply ann_fourth; [|exact Hc3]. destruct Hc2 as [-> | ->]; auto. }
    apply is_vowel_cases in Hv.
    destruct Hc2 as [-> | ->];
      destruct Hv as [<-|[<-|[<-|[<-|[<-|[]]]]]]; vm_compute; tauto.
Qed.

(** C1, as the code has it. With noise 0 on the model of
    ["ann"; "anna"; "ana"], whatever the draws, [random_name] returns one
    of "Ann", "Ana", "Anna", or a name of four letters that ends in a
    fallback vowel: "Anne", "Anni", "Anno", "Annu", "Anaa", "Anae",
    "Anai", "Anao" or "Anau". *)
Theorem ann_random_names (fuel : nat) (t : tape) (p : nat) (s : string) (p' : nat) :
  random_name fuel ann_model 0 t p = Ret (s, p') -> In s ann_names.
Proof.
  intros H. apply random_name_inv in H. destruct H as (p0 & name & Hpass & _ & ->).
  eapply ann_pass_names, Hpass.
Qed.

Lemma ann_random_names_witness :
  random_name 1 ann_model 0 tape_zero 0 = Ret ("Ann", 6) /\ In "Ann" ann_names.
Proof.
  split; [vm_compute; reflexivity|].
  apply (ann_random_names 1 tape_zero 0 "Ann" 6). vm_compute. reflexivity.
Defined.

(** Each of the twelve names is returned on some tape. *)
Lemma ann_names_reachable (s : string) :
  In s ann_names -> exists t p', random_name 1 ann_model 0 t 0 = Ret (s, p').
Proof.
  pose (tp := fun (a b v : N) (i : nat) =>
                if i =? 0 then a else if i =? 5 then b
                else if i =? 106 then v else 0%N).
  pose (hi := 9007199254740991%N). pose (mid := 4503599627370496%N).
  intros H. simpl in H.
  destruct H as [<-|[<-|[<-|[<-|[<-|[<-|[<-|[<-|[<-|[<-|[<-|[<-|[]]]]]]]]]]]]].
  - exists (tp 0 0 0)%N. eexists. vm_compute. reflexivity.
  - exists (tp 0 mid 0)%N. eexists. vm_compute. reflexivity.
  - exists (tp hi 0 0)%N. eexists. vm_compute. reflexivity.
  - exists (tp hi 0 1)%N. eexists. vm_compute. reflexivity.
  - exists (tp hi 0 2)%N. eexists. vm_compute. reflexivity.
  - exists (tp hi 0 3)%N. eexists. vm_compute. reflexivity.
  - exists (tp hi 0 4)%N. eexists. vm_compute. reflexivity.
  - exists (tp hi mid 0)%N. eexists. vm_compute. reflexivity.
  - exists (tp hi mid 1)%N. eexists. vm_compute. reflexivity.
  - exists (tp hi mid 2)%N. eexists. vm_compute. reflexivity.
  - exists (tp hi mid 3)%N. eexists. vm_compute. reflexivity.
  - exists (tp hi mid 4)%N. eexists. vm_compute. reflexivity.
Qed.

(** C1 as claimed fails: on [tape_anae] the call returns "Anae", which is
    none of "Ann", "Anna", "Ana". *)
Lemma ann_returns_anae :
  random_name 1 ann_model 0 tape_anae 0 = Ret ("Anae", 107)
  /\ ~ In "Anae" ["Ann"; "Anna"; "Ana"].
Proof.
  split; [vm_compute; reflexivity|].
  intros [H|[H|[H|[]]]]; discriminate.
Qed.

(** * Further properties of the trainer *)

(** ** Counters *)

Ltac dec_cases :=
  repeat (simpl; match goal with
                 | |- context [decide ?P] => destruct (decide P)
                 end);
  simpl; repeat match goal with H : _ /\ _ |- _ => destruct H end;
  subst; first [lia | exfalso; intuition congruence].

Section CounterReads.
Context {K : Type} `{EqDecision K}.

Lemma counter_get_incr (k k' : K) (c : list (K * nat)) :
  counter_get k' (counter_incr k c)
  = counter_get k' c + (if decide (k = k') then 1 else 0).
Proof.
  unfold counter_get. induction c as [|[k0 n] c IH]; simpl.
  - dec_cases.
  - destruct (decide (k = k0)) as [Hk|Hk]; simpl.
    + dec_cases.
    + destruct (decide (k' = k0)) as [Hk'|Hk']; [|exact IH].
      dec_cases.
Qed.

Lemma counter_total_incr (k : K) (c : list (K * nat)) :
  counter_total (counter_incr k c) = S (counter_total c).
Proof.
  unfold counter_total. induction c as [|[k0 n] c IH]; simpl; [reflexivity|].
  destruct (decide (k = k0)); simpl; [reflexivity | rewrite IH; lia].
Qed.

End CounterReads.

Lemma transition_count_incr (a b a' b' : ascii)
    (d : list (ascii * list (ascii * nat))) :
  transition_count a' b' (pairs_incr a b d)
  = transition_count a' b' d + (if decide (a = a' /\ b = b') then 1 else 0).
Proof.
  unfold transition_count. induction d as [|[a0 c] d IH]; simpl.
  - unfold counter_get. simpl. dec_cases.
  - destruct (decide (a = a0)) as [Ha|Ha]; simpl.
    + destruct (decide (a' = a0)) as [Ha'|Ha'].
      * rewrite counter_get_incr. dec_cases.
      * dec_cases.
    + destruct (decide (a' = a0)) as [Ha'|Ha']; [|exact IH].
      dec_cases.
Qed.

(** ** The scan of one name *)

Lemma foldO_ext {A S} (f g : S -> A -> outcome S) (l : list A) :
  (forall s x, f s x = g s x) -> forall s, foldO f l s = foldO g l s.
Proof.
  intros Hfg. induction l as [|x l IH]; intros s; simpl; [reflexivity|].
  rewrite Hfg. destruct (g s x); simpl; auto.
Qed.

Lemma foldO_map {A B S} (f : S -> B -> outcome S) (h : A -> B) (l : list A) :
  forall s, foldO f (List.map h l) s = foldO (fun s x => f s (h x)) l s.
Proof.
  induction l as [|x l IH]; intros s; simpl; [reflexivity|].
  destruct (f s (h x)); simpl; auto.
Qed.

Lemma foldO_app {A S} (f : S -> A -> outcome S) (l1 l2 : list A) :
  forall s, foldO f (l1 ++ l2) s = bindO (foldO f l1 s) (foldO f l2).
Proof.
  induction l1 as [|x l1 IH]; intros s; simpl; [reflexivity|].
  destruct (f s x); simpl; auto.
Qed.

(** Index [S i] of [String c s] is index [i] of [s], also for the round of
    the scan made there. *)
Lemma analyze_pair_shift (c : ascii) (s : string) (self : NameGenerator) (i : nat) :
  analyze_pair (String c s) self (S i) = analyze_pair s self i.
Proof.
  unfold analyze_pair, str_index, Py.slice, Py.len. simpl.
  replace (S (i + 3) - S i) with 3 by lia. replace (i + 3 - i) with 3 by lia.
  replace (S i <? String.length s - 1) with (i <? String.length s - 2); [reflexivity|].
  destruct (Nat.ltb_spec i (String.length s - 2));
    destruct (Nat.ltb_spec (S i) (String.length s - 1)); try reflexivity; lia.
Qed.

Lemma scan_shift (c : ascii) (s : string) (n : nat) (self : NameGenerator) :
  foldO (analyze_pair (String c s)) (seq 1 n) self
  = foldO (analyze_pair s) (seq 0 n) self.
Proof.
  rewrite <- seq_shift, foldO_map. apply foldO_ext. intros s0 i.
  apply analyze_pair_shift.
Qed.

Lemma trigram_of_short (x name : string) : Py.len name < 3 -> ~ trigram_of x name.
Proof. intros Hlen (i & Hi & _). lia. Qed.

Lemma trigram_of_cons (x : string) (c : ascii) (s : string) :
  trigram_of x (String c s)
  <-> (3 <= Py.len (String c s) /\ x = Py.slice (String c s) 0 3) \/ trigram_of x s.
Proof.
  unfold trigram_of, Py.slice, Py.len. split.
  - intros ([|i] & Hi & ->).
    + left. split; [simpl in *; lia | reflexivity].
    + right. exists i. simpl in Hi. split; [lia|].
      replace (S i + 3 - S i) with 3 by lia. replace (i + 3 - i) with 3 by lia.
      reflexivity.
  - intros [[Hlen ->] | (i & Hi & ->)].
    + exists 0. split; [exact Hlen | reflexivity].
    + exists (S i). split; [simpl; lia|].
      replace (S i + 3 - S i) with 3 by lia. replace (i + 3 - i) with 3 by lia.
      reflexivity.
Qed.

Lemma pair_occurrences_cons (a b c y : ascii) (r : string) :
  pair_occurrences a b (String c (String y r))
  = (if decide (c = a /\ y = b) then 1 else 0) + pair_occurrences a b (String y r).
Proof. reflexivity. Qed.

(** The scan of [name] changes the transitions and the trigrams only: it
    adds the adjacent pairs and the trigrams of [name]. *)
Lemma scan_effect (name : string) :
  forall self self',
  foldO (analyze_pair name) (seq 0 (Py.len name - 1)) self = Ret self' ->
  first_letter_distribution self' = first_letter_distribution self
  /\ length_distribution self' = length_distribution self
  /\ first_two_letter_digrams self' = first_two_letter_digrams self
  /\ last_two_letter_digrams self' = last_two_letter_digrams self
  /\ (forall a b,
        transition_count a b (letter_pairs self')
        = transition_count a b (letter_pairs self) + pair_occurrences a b name)
  /\ (forall x, x ∈ trigrams self' <-> x ∈ trigrams self \/ trigram_of x name).
Proof.
  induction name as [|c s IH]; intros self self' H.
  - injection H as <-. repeat split; auto; try (simpl; lia).
    intros [Hx|(i & Hi & _)]; [exact Hx | simpl in Hi; lia].
  - destruct s as [|y r].
    + injection H as <-. repeat split; auto; try (simpl; lia).
      intros [Hx|Ht]; [exact Hx|]. exfalso. revert Ht. apply trigram_of_short. simpl. lia.
    + change (Py.len (String c (String y r)) - 1) with (S (Py.len r)) in H.
      change (seq 0 (S (Py.len r))) with (0 :: seq 1 (Py.len r)) in H.
      cbn [foldO] in H.
      destruct (analyze_pair (String c (String y r)) self 0) as [self1| |] eqn:E1;
        simpl in H; try discriminate.
      rewrite scan_shift in H.
      replace (Py.len r) with (Py.len (String y r) - 1) in H
        by (unfold Py.len; simpl; lia).
      apply IH in H. destruct H as (Hf & Hl & Hs & He & Hp & Ht).
      unfold analyze_pair in E1. simpl in E1. injection E1 as <-. simpl in *.
      repeat split; auto.
      * intros a b. rewrite Hp, transition_count_incr. lia.
      * intros Hx. apply Ht in Hx. rewrite trigram_of_cons.
        destruct Hx as [Hx|Hx]; [|auto].
        destruct (0 <? Py.len r - 0) eqn:E; [|auto].
        apply elem_of_union in Hx. destruct Hx as [Hx|Hx]; [|auto].
        apply elem_of_singleton in Hx. right. left. apply Nat.ltb_lt in E.
        split; [unfold Py.len in *; simpl; lia | exact Hx].
      * intros Hx. apply Ht. rewrite trigram_of_cons in Hx.
        destruct Hx as [Hx|[[Hlen ->]|Hx]]; [|left|auto].
        -- left. destruct (0 <? Py.len r - 0); [apply elem_of_union; auto | exact Hx].
        -- replace (0 <? Py.len r - 0) with true.
           ++ apply elem_of_union. left. now apply elem_of_singleton.
           ++ symmetry. apply Nat.ltb_lt. unfold Py.len in *. simpl in Hlen. lia.
Qed.

(** ** What training adds *)

Lemma trained_on_nil (s : NameGenerator) : trained_on [] s s.
Proof.
  constructor; intros; try (unfold names_starting, names_of_length, corpus_pairs; simpl; lia).
  - split; [auto | intros [H|(name & [] & _)]; exact H].
  - split; [auto | intros [H|(name & [] & _)]; exact H].
  - split; [auto | intros [H|(name & [] & _)]; exact H].
Qed.

Lemma trained_on_cons (name : string) (names : list string) (s s1 s' : NameGenerator) :
  trained_on [name] s s1 -> trained_on names s1 s' -> trained_on (name :: names) s s'.
Proof.
  intros [A1 A2 A3 A4 A5 A6 A7 A8] [B1 B2 B3 B4 B5 B6 B7 B8]. constructor.
  - intros c. rewrite B1, A1. unfold names_starting. simpl.
    destruct (starts_with c name); simpl; lia.
  - intros L. rewrite B2, A2. unfold names_of_length. simpl.
    destruct (Py.len name =? L); simpl; lia.
  - intros a b. rewrite B3, A3. unfold corpus_pairs. simpl. lia.
  - intros x. rewrite B4, A4. split.
    + intros [[H|(n & [<-|[]] & ->)]|(n & Hn & ->)]; [auto| |]; right; eexists; split;
        try reflexivity; simpl; auto.
    + intros [H|(n & [<-|Hn] & ->)]; [auto| |].
      * left. right. exists name. simpl. auto.
      * right. eauto.
  - intros x. rewrite B5, A5. split.
    + intros [[H|(n & [<-|[]] & ->)]|(n & Hn & ->)]; [auto| |]; right; eexists; split;
        try reflexivity; simpl; auto.
    + intros [H|(n & [<-|Hn] & ->)]; [auto| |].
      * left. right. exists name. simpl. auto.
      * right. eauto.
  - intros x. rewrite B6, A6. split.
    + intros [[H|(n & [<-|[]] & Ht)]|(n & Hn & Ht)]; [auto| |]; right; eexists; split;
        try exact Ht; simpl; auto.
    + intros [H|(n & [<-|Hn] & Ht)]; [auto| |].
      * left. right. exists name. simpl. auto.
      * right. eauto.
  - rewrite B7, A7. simpl. lia.
  - rewrite B8, A8. simpl. lia.
Qed.

Lemma analyze_name_effect (self : NameGenerator) (name : string)
    (self' : NameGenerator) :
  analyze_name self name = Ret self' -> trained_on [name] self self'.
Proof.
  unfold analyze_name, str_index.
  destruct (String.get 0 name) as [c0|] eqn:E0; simpl; [|discriminate].
  intros H. apply scan_effect in H. simpl in H.
  destruct H as (Hf & Hl & Hs & He & Hp & Ht). constructor.
  - intros c. rewrite Hf, counter_get_incr. unfold names_starting, starts_with. simpl.
    rewrite E0. destruct (decide (c0 = c)) as [->|Hne].
    + rewrite bool_decide_eq_true_2 by reflexivity. reflexivity.
    + rewrite bool_decide_eq_false_2 by congruence. reflexivity.
  - intros L. rewrite Hl, counter_get_incr. unfold names_of_length. simpl.
    destruct (decide (Py.len name = L)) as [->|Hne].
    + now rewrite Nat.eqb_refl.
    + apply Nat.eqb_neq in Hne. now rewrite Hne.
  - intros a b. rewrite Hp. unfold corpus_pairs. simpl. lia.
  - intros x. rewrite Hs, elem_of_union, elem_of_singleton. split.
    + intros [->|H]; [right; exists name; simpl; auto | auto].
    + intros [H|(n & [<-|[]] & ->)]; auto.
  - intros x. rewrite He, elem_of_union, elem_of_singleton. split.
    + intros [->|H]; [right; exists name; simpl; auto | auto].
    + intros [H|(n & [<-|[]] & ->)]; auto.
  - intros x. rewrite Ht. split.
    + intros [H|H]; [auto | right; exists name; simpl; auto].
    + intros [H|(n & [<-|[]] & H)]; auto.
  - rewrite Hf, counter_total_incr. simpl. lia.
  - rewrite Hl, counter_total_incr. simpl. lia.
Qed.

Lemma foldO_trained_on (names : list string) :
  forall s s', foldO analyze_name names s = Ret s' -> trained_on names s s'.
Proof.
  induction names as [|name names IH]; intros s s' H.
  - injection H as <-. apply trained_on_nil.
  - cbn [foldO] in H. destruct (analyze_name s name) as [s1| |] eqn:E; simpl in H;
      try discriminate.
    eapply trained_on_cons; [apply analyze_name_effect, E | apply IH, H].
Qed.

Lemma analyze_names_trained_on (fs : filesystem) (file_name : string)
    (file : list string) (m : NameGenerator) :
  fs file_name = Some file ->
  _analyze_names fs (init_fields file_name) = Ret m ->
  trained_on (retained_names file) (init_fields file_name) m.
Proof.
  intros Hfs H. unfold _analyze_names in H. simpl in H. rewrite Hfs in H.
  now apply foldO_trained_on.
Qed.

(** X1. The two counters of a trained model count names. *)
Theorem trained_counts (fs : filesystem) (file_name : string)
    (file : list string) (m : NameGenerator) :
  fs file_name = Some file ->
  _analyze_names fs (init_fields file_name) = Ret m ->
  (forall c, counter_get c (first_letter_distribution m)
             = names_starting c (retained_names file))
  /\ (forall L, counter_get L (length_distribution m)
                = names_of_length L (retained_names file))
  /\ counter_total (first_letter_distribution m) = length (retained_names file)
  /\ counter_total (length_distribution m) = length (retained_names file).
Proof.
  intros Hfs H. destruct (analyze_names_trained_on _ _ _ _ Hfs H)
    as [A1 A2 _ _ _ _ A7 A8].
  repeat split.
  - intros c. now rewrite A1.
  - intros L. now rewrite A2.
  - now rewrite A7.
  - now rewrite A8.
Qed.

Lemma trained_counts_witness :
  (forall c, counter_get c (first_letter_distribution ann_model)
             = names_starting c (retained_names ann_corpus))
  /\ (forall L, counter_get L (length_distribution ann_model)
                = names_of_length L (retained_names ann_corpus))
  /\ counter_total (first_letter_distribution ann_model)
     = length (retained_names ann_corpus)
  /\ counter_total (length_distribution ann_model)
     = length (retained_names ann_corpus).
Proof.
  apply (trained_counts (corpus_fs "names.txt" ann_corpus) "names.txt" ann_corpus
           ann_model).
  - reflexivity.
  - vm_compute. reflexivity.
Defined.

(** X2. The transition counters count adjacent pairs: the count kept for
    [b] after [a] is the number of places in the retained names where [b]
    directly follows [a]. *)
Theorem trained_transitions (fs : filesystem) (file_name : string)
    (file : list string) (m : NameGenerator) :
  fs file_name = Some file ->
  _analyze_names fs (init_fields file_name) = Ret m ->
  forall a b, transition_count a b (letter_pairs m)
              = corpus_pairs a b (retained_names file).
Proof.
  intros Hfs H a b.
  destruct (analyze_names_trained_on _ _ _ _ Hfs H) as [_ _ A3 _ _ _ _ _].
  now rewrite A3.
Qed.

Lemma trained_transitions_witness :
  transition_count "n" "a" (letter_pairs ann_model)
  = corpus_pairs "n" "a" (retained_names ann_corpus).
Proof.
  apply (trained_transitions (corpus_fs "names.txt" ann_corpus) "names.txt"
           ann_corpus ann_model).
  - reflexivity.
  - vm_compute. reflexivity.
Defined.

(** X3. The two sets of digrams are exactly the first two and the last two
    characters of the retained names. *)
Theorem trained_digram_sets (fs : filesystem) (file_name : string)
    (file : list string) (m : NameGenerator) :
  fs file_name = Some file ->
  _analyze_names fs (init_fields file_name) = Ret m ->
  (forall x, x ∈ first_two_letter_digrams m
             <-> exists name, In name (retained_names file) /\ x = Py.first2 name)
  /\ (forall x, x ∈ last_two_letter_digrams m
                <-> exists name, In name (retained_names file) /\ x = Py.last2 name).
Proof.
  intros Hfs H.
  destruct (analyze_names_trained_on _ _ _ _ Hfs H) as [_ _ _ A4 A5 _ _ _].
  split; intros x; [rewrite A4 | rewrite A5]; simpl;
    (split; [intros [Hx|Hx]; [now apply not_elem_of_empty in Hx | exact Hx] | auto]).
Qed.

Lemma trained_digram_sets_witness :
  (forall x, x ∈ first_two_letter_digrams ann_model
             <-> exists name, In name (retained_names ann_corpus) /\ x = Py.first2 name)
  /\ (forall x, x ∈ last_two_letter_digrams ann_model
                <-> exists name, In name (retained_names ann_corpus)
                                 /\ x = Py.last2 name).
Proof.
  apply (trained_digram_sets (corpus_fs "names.txt" ann_corpus) "names.txt"
           ann_corpus ann_model).
  - reflexivity.
  - vm_compute. reflexivity.
Defined.

(** X4. The set of trigrams is exactly the set of the windows of three
    consecutive characters of the retained names; a name of two characters
    has none. *)
Theorem trained_trigram_set (fs : filesystem) (file_name : string)
    (file : list string) (m : NameGenerator) :
  fs file_name = Some file ->
  _analyze_names fs (init_fields file_name) = Ret m ->
  forall x, x ∈ trigrams m
            <-> exists name i, In name (retained_names file)
                  /\ i + 3 <= Py.len name /\ x = Py.slice name i (i + 3).
Proof.
  intros Hfs H x.
  destruct (analyze_names_trained_on _ _ _ _ Hfs H) as [_ _ _ _ _ A6 _ _].
  rewrite A6. simpl. unfold trigram_of. split.
  - intros [Hx|(name & Hin & i & Hi & ->)]; [now apply not_elem_of_empty in Hx|].
    exists name, i. auto.
  - intros (name & i & Hin & Hi & ->). right. exists name. split; [exact Hin|]. eauto.
Qed.

Lemma trained_trigram_set_witness :
  "nna" ∈ trigrams ann_model
  <-> exists name i, In name (retained_names ann_corpus)
        /\ i + 3 <= Py.len name /\ "nna" = Py.slice name i (i + 3).
Proof.
  apply (trained_trigram_set (corpus_fs "names.txt" ann_corpus) "names.txt"
           ann_corpus ann_model).
  - reflexivity.
  - vm_compute. reflexivity.
Defined.

(** ** The sets agree with the transitions *)

Lemma pair_occurrences_tail (a b c : ascii) (s : string) :
  pair_occurrences a b s <= pair_occurrences a b (String c s).
Proof. destruct s as [|y r]; [simpl; lia|]. rewrite pair_occurrences_cons. lia. Qed.

Lemma substring2_pair (name : string) :
  forall i a b, substring i 2 name = String a (String b "") ->
  1 <= pair_occurrences a b name.
Proof.
  induction name as [|c s IH]; intros [|i] a b H; simpl in H; try discriminate.
  - destruct s as [|y r]; simpl in H; [discriminate|].
    injection H as -> -> _. rewrite pair_occurrences_cons.
    destruct (decide (a = a /\ b = b)) as [_|N]; [lia | exfalso; auto].
  - apply IH in H. pose proof (pair_occurrences_tail a b c s). lia.
Qed.

Lemma substring3_split (name : string) :
  forall i a b c, substring i 3 name = String a (String b (String c "")) ->
  substring i 2 name = String a (String b "")
  /\ substring (S i) 2 name = String b (String c "").
Proof.
  induction name as [|x s IH]; intros [|i] a b c H; simpl in H; try discriminate.
  - destruct s as [|y [|z r]]; simpl in H; try discriminate.
    injection H as -> -> -> _. split; [reflexivity|]. destruct r; reflexivity.
  - apply IH in H. exact H.
Qed.

Lemma corpus_pairs_In (a b : ascii) (name : string) (names : list string) :
  In name names -> pair_occurrences a b name <= corpus_pairs a b names.
Proof.
  unfold corpus_pairs. induction names as [|n names IH]; [intros []|].
  intros [<-|Hin]; simpl; [lia|]. specialize (IH Hin). lia.
Qed.

(** X5. In a trained model every digram and trigram of the three sets is
    backed by the transition counters: its adjacent letters have a count of
    at least 1. *)
Theorem trained_ngrams_have_transitions (fs : filesystem) (file_name : string)
    (file : list string) (m : NameGenerator) :
  fs file_name = Some file ->
  _analyze_names fs (init_fields file_name) = Ret m ->
  (forall a b, String a (String b "") ∈ first_two_letter_digrams m ->
     1 <= transition_count a b (letter_pairs m))
  /\ (forall a b, String a (String b "") ∈ last_two_letter_digrams m ->
        1 <= transition_count a b (letter_pairs m))
  /\ (forall a b c, String a (String b (String c "")) ∈ trigrams m ->
        1 <= transition_count a b (letter_pairs m)
        /\ 1 <= transition_count b c (letter_pairs m)).
Proof.
  intros Hfs H.
  destruct (analyze_names_trained_on _ _ _ _ Hfs H) as [_ _ A3 A4 A5 A6 _ _].
  assert (Hpair : forall name i a b, In name (retained_names file) ->
            substring i 2 name = String a (String b "") ->
            1 <= transition_count a b (letter_pairs m)).
  { intros name i a b Hin Hsub. rewrite A3.
    pose proof (substring2_pair name i a b Hsub).
    pose proof (corpus_pairs_In a b name _ Hin). lia. }
  assert (Htri : forall a b c, String a (String b (String c "")) ∈ trigrams m ->
            exists name i, In name (retained_names file)
              /\ substring i 3 name = String a (String b (String c ""))).
  { intros a b c Hx. apply A6 in Hx.
    destruct Hx as [Hx|(name & Hin & i & Hi & Hx)]; [now apply not_elem_of_empty in Hx|].
    unfold Py.slice in Hx. replace (i + 3 - i) with 3 in Hx by lia. eauto. }
  split; [|split].
  - intros a b Hx. apply A4 in Hx.
    destruct Hx as [Hx|(name & Hin & Hx)]; [now apply not_elem_of_empty in Hx|].
    apply (Hpair name 0 a b Hin). symmetry. exact Hx.
  - intros a b Hx. apply A5 in Hx.
    destruct Hx as [Hx|(name & Hin & Hx)]; [now apply not_elem_of_empty in Hx|].
    destruct (retained_names_spec _ _ Hin) as [Hlen _].
    apply (Hpair name (Py.len name - 2) a b Hin). symmetry.
    unfold Py.last2, Py.slice in Hx.
    replace (Py.len name - (Py.len name - 2)) with 2 in Hx by lia. exact Hx.
  - intros a b c Hx. destruct (Htri a b c Hx) as (name & i & Hin & Hsub).
    apply substring3_split in Hsub. destruct Hsub as [H1 H2].
    split; [apply (Hpair name i a b Hin H1) | apply (Hpair name (S i) b c Hin H2)].
Qed.

Lemma trained_ngrams_have_transitions_witness :
  (forall a b, String a (String b "") ∈ first_two_letter_digrams ann_model ->
     1 <= transition_count a b (letter_pairs ann_model))
  /\ (forall a b, String a (String b "") ∈ last_two_letter_digrams ann_model ->
        1 <= transition_count a b (letter_pairs ann_model))
  /\ (forall a b c, String a (String b (String c "")) ∈ trigrams ann_model ->
        1 <= transition_count a b (letter_pairs ann_model)
        /\ 1 <= transition_count b c (letter_pairs ann_model)).
Proof.
  apply (trained_ngrams_have_transitions (corpus_fs "names.txt" ann_corpus)
           "names.txt" ann_corpus ann_model).
  - reflexivity.
  - vm_compute. reflexivity.
Defined.

(** ** Case and surrounding blanks *)





(** * Further properties of the sampler *)

(** ** The cost of a character and of a pass *)

Lemma random_ret_unit (t : tape) (p : nat) :
  exists u, random.random t p = Ret (u, S p) /\ (0 <= u)%Q /\ (u < 1)%Q.
Proof.
  eexists. split; [reflexivity|]. unfold Qle, Qlt. cbn [Qnum Qden].
  pose proof (N.mod_upper_bound (t p) random.two53) as Hlt.
  assert (Hb : (t p mod random.two53 < 9007199254740992)%N)
    by (apply Hlt; discriminate).
  generalize dependent (t p mod random.two53)%N. intros n _ Hn. lia.
Qed.

Lemma generate_next_char_cost (self : NameGenerator) (name : string)
    (length : nat) (noise : Q) (t : tape) (p : nat) (c : ascii) (p' : nat) :
  _generate_next_char self name length noise t p = Ret (c, p') ->
  p + 2 <= p' <= p + 101.
Proof.
  unfold _generate_next_char. intros H. inv_bind H.
  destruct (random_ret t p) as (u & Hu & _). rewrite Hu in Ha. injection Ha as <- <-.
  apply next_char_loop_spec in H.
  destruct H as [(k & Hk & -> & _) | (-> & _)]; lia.
Qed.

Lemma for_range_cost {A} (body : A -> M A) (t : tape) (lo hi : nat) :
  (forall a p a' p', body a t p = Ret (a', p') -> p + lo <= p' <= p + hi) ->
  forall n acc p a' p',
  for_range n body acc t p = Ret (a', p') -> p + n * lo <= p' <= p + n * hi.
Proof.
  intros Hbody. induction n as [|n IH]; intros acc p a' p' H.
  - injection H as _ <-. lia.
  - cbn [for_range] in H. inv_bind H.
    apply Hbody in Ha. apply IH in H. lia.
Qed.

(** ** Accepted characters pass the checks *)

Lemma str_last_cons (x y : ascii) (r : string) :
  str_last (String x (String y r)) = str_last (String y r).
Proof. reflexivity. Qed.

Lemma last2_cons (x : ascii) (s : string) :
  2 <= Py.len s -> Py.last2 (String x s) = Py.last2 s.
Proof.
  intros Hlen. unfold Py.last2, Py.slice, Py.len in *. simpl String.length.
  replace (S (String.length s) - 2) with (S (String.length s - 2)) by lia.
  replace (S (String.length s) - S (String.length s - 2)) with 2 by lia.
  replace (String.length s - (String.length s - 2)) with 2 by lia.
  reflexivity.
Qed.

(** The last two characters of [name + c] are the last character of
    [name] and [c]. *)
Lemma last2_app_char (name : string) (c l : ascii) :
  str_last name = Ret l ->
  Py.last2 (name ++ Py.char_str c) = String l (Py.char_str c).
Proof.
  induction name as [|x s IH]; [discriminate|].
  destruct s as [|y r].
  - intros [= <-]. reflexivity.
  - rewrite str_last_cons. intros H. rewrite app_cons, last2_cons.
    + now apply IH.
    + rewrite len_app. simpl. lia.
Qed.

Lemma rejected_false_inv (self : NameGenerator) (name : string) (length : nat)
    (c : ascii) :
  rejected self name length c = Ret false ->
  (Py.len name = 1 -> name ++ Py.char_str c ∈ first_two_letter_digrams self)
  /\ (2 <= Py.len name -> Py.last2 name ++ Py.char_str c ∈ trigrams self)
  /\ (length - 1 <= Py.len name ->
        Py.last2 (name ++ Py.char_str c) ∈ last_two_letter_digrams self).
Proof.
  unfold rejected. intros H.
  destruct (Py.len name =? 1) eqn:E1.
  - apply Nat.eqb_eq in E1. destruct name as [|c0 [|y r]]; try discriminate.
    change (str_index (String c0 "") 0) with (Ret c0) in H. cbn [bindO] in H.
    destruct (bool_decide (String c0 (Py.char_str c) ∈ first_two_letter_digrams self))
      eqn:B1; cbn [negb bindO] in H; [|discriminate].
    apply bool_decide_eq_true_1 in B1.
    change (2 <=? Py.len (String c0 "")) with false in H. cbn [andb] in H.
    split; [intros _; exact B1|]. split; [simpl; lia|].
    intros Hl. destruct (length - 1 <=? Py.len (String c0 "")) eqn:E3.
    + change (str_last (String c0 "")) with (Ret c0) in H. cbn [bindO] in H.
      injection H as H. apply negb_false_iff, bool_decide_eq_true_1 in H. exact H.
    + apply Nat.leb_gt in E3. lia.
  - apply Nat.eqb_neq in E1. cbn [bindO] in H.
    split; [intros; lia|].
    destruct (2 <=? Py.len name) eqn:E2.
    + destruct (bool_decide (Py.last2 name ++ Py.char_str c ∈ trigrams self)) eqn:B2;
        cbn [negb andb] in H; [|discriminate].
      apply bool_decide_eq_true_1 in B2. split; [intros _; exact B2|].
      intros Hl. destruct (length - 1 <=? Py.len name) eqn:E3.
      * destruct (str_last name) as [l| |] eqn:El; cbn [bindO] in H; try discriminate.
        injection H as H. apply negb_false_iff, bool_decide_eq_true_1 in H.
        now rewrite (last2_app_char name c l El).
      * apply Nat.leb_gt in E3. lia.
    + cbn [andb] in H. apply Nat.leb_gt in E2. split; [intros; lia|].
      intros Hl. destruct (length - 1 <=? Py.len name) eqn:E3.
      * destruct (str_last name) as [l| |] eqn:El; cbn [bindO] in H; try discriminate.
        injection H as H. apply negb_false_iff, bool_decide_eq_true_1 in H.
        now rewrite (last2_app_char name c l El).
      * apply Nat.leb_gt in E3. lia.
Qed.

(** X7. A call of [_generate_next_char] that returns has read between 2 and
    101 cells of the tape.  When it read at most 100 the character returned
    passed every check that applies: it completes a start digram after a
    single letter, a trigram after two or more, and an end digram from the
    position [length - 1] on.  When it read 101 the character is a
    fallback vowel. *)
Theorem generate_next_char_draws (self : NameGenerator) (name : string)
    (length : nat) (noise : Q) (t : tape) (p : nat) (c : ascii) (p' : nat) :
  _generate_next_char self name length noise t p = Ret (c, p') ->
  p + 2 <= p' <= p + 101
  /\ (p' <= p + 100 ->
      (Py.len name = 1 -> name ++ Py.char_str c ∈ first_two_letter_digrams self)
      /\ (2 <= Py.len name -> Py.last2 name ++ Py.char_str c ∈ trigrams self)
      /\ (length - 1 <= Py.len name ->
            Py.last2 (name ++ Py.char_str c) ∈ last_two_letter_digrams self))
  /\ (p' = p + 101 -> is_vowel c = true).
Proof.
  intros H. split; [eapply generate_next_char_cost, H|].
  unfold _generate_next_char in H. inv_bind H.
  destruct (random_ret t p) as (u & Hu & _). rewrite Hu in Ha. injection Ha as <- <-.
  apply next_char_loop_spec in H.
  destruct H as [(k & Hk & -> & [_ Hrej] & _) | (-> & Hc & _)].
  - split; [intros _; now apply rejected_false_inv in Hrej | intros; lia].
  - split; [intros; lia|]. intros _.
    apply choice_ret in Hc. destruct Hc as [_ Hin]. simpl in Hin.
    repeat (destruct Hin as [<-|Hin]; [reflexivity|]). destruct Hin.
Qed.

Lemma generate_next_char_draws_witness :
  _generate_next_char ann_model "an" 3 0 tape_zero 0 = Ret ("n"%char, 2)
  /\ 0 + 2 <= 2 <= 0 + 101
  /\ (2 <= 0 + 100 ->
      (Py.len "an" = 1 -> "an" ++ Py.char_str "n" ∈ first_two_letter_digrams ann_model)
      /\ (2 <= Py.len "an" -> Py.last2 "an" ++ Py.char_str "n" ∈ trigrams ann_model)
      /\ (3 - 1 <= Py.len "an" ->
            Py.last2 ("an" ++ Py.char_str "n") ∈ last_two_letter_digrams ann_model))
  /\ (2 = 0 + 101 -> is_vowel "n" = true).
Proof.
  split; [vm_compute; reflexivity|].
  apply (generate_next_char_draws ann_model "an" 3 0 tape_zero 0 "n" 2).
  vm_compute. reflexivity.
Defined.

(** X8. A pass of [random_name] that builds a name of [n] characters has
    read between [2 + 2 (n - 1)] and [2 + 101 (n - 1)] cells of the tape:
    the inner loop bounds the cost of every letter. *)
Theorem random_name_pass_draws (self : NameGenerator) (noise : Q) (t : tape)
    (p : nat) (name : string) (p' : nat) :
  random_name_pass self noise t p = Ret (name, p') ->
  p + 2 + 2 * (Py.len name - 1) <= p' <= p + 2 + 101 * (Py.len name - 1).
Proof.
  intros H.
  destruct (random_name_pass_len _ _ _ _ _ _ H) as (L & HL & Hlen).
  unfold random_name_pass in H. inv_bind H. rewrite HL in Ha. injection Ha as <- <-.
  inv_bind H. apply weighted_ret in Ha. destruct Ha as [-> _].
  apply (for_range_cost _ t 2 101) in H.
  - replace (Py.len name - 1) with (L - 1) by lia. lia.
  - intros s q s' q' Hb. inv_bind Hb. injection Hb as _ <-.
    eapply generate_next_char_cost, Hba.
Qed.

Lemma random_name_pass_draws_witness :
  random_name_pass ann_model 0 tape_zero 0 = Ret ("ann", 6)
  /\ 0 + 2 + 2 * (Py.len "ann" - 1) <= 6 <= 0 + 2 + 101 * (Py.len "ann" - 1).
Proof.
  split; [vm_compute; reflexivity|].
  apply (random_name_pass_draws ann_model 0 tape_zero 0 "ann" 6).
  vm_compute. reflexivity.
Defined.

(** ** The two ends of the noise range *)

Lemma Qltb_nonpos (u noise : Q) :
  (0 <= u)%Q -> (noise <= 0)%Q -> Qltb u noise = false.
Proof.
  intros Hu Hn. unfold Qltb. apply negb_false_iff, Qle_bool_iff.
  now apply Qle_trans with 0%Q.
Qed.

Lemma Qltb_ge_one (u noise : Q) :
  (u < 1)%Q -> (1 <= noise)%Q -> Qltb u noise = true.
Proof.
  intros Hu Hn. unfold Qltb. apply negb_true_iff.
  destruct (Qle_bool noise u) eqn:E; [|reflexivity].
  apply Qle_bool_iff in E. exfalso.
  apply (Qlt_irrefl 1). apply Qle_lt_trans with u; [|exact Hu].
  now apply Qle_trans with noise.
Qed.

Lemma candidate_modeled_keys (self : NameGenerator) (name : string) (t : tape)
    (q : nat) (c : ascii) (q' : nat) :
  candidate self name false t q = Ret (c, q') ->
  exists l, str_last name = Ret l /\ may_follow self l c.
Proof.
  unfold candidate. intros H. inv_bind H. apply liftO_ret_inv in Ha.
  destruct Ha as [Hl ->]. exists a. split; [exact Hl|].
  apply weighted_ret in H. destruct H as [_ Hin].
  destruct (dict_get a (letter_pairs self)) as [cnt|] eqn:E.
  - right. eauto.
  - left. unfold VOWEL_COUNTER in Hin. simpl in Hin.
    repeat (destruct Hin as [<-|Hin]; [reflexivity|]). destruct Hin.
Qed.

Lemma generate_next_char_modeled (self : NameGenerator) (name : string)
    (length : nat) (noise : Q) (t : tape) (p : nat) (c : ascii) (p' : nat) :
  (noise <= 0)%Q ->
  _generate_next_char self name length noise t p = Ret (c, p') ->
  is_vowel c = true \/ exists l, str_last name = Ret l /\ may_follow self l c.
Proof.
  intros Hn H. apply generate_next_char_cases in H.
  destruct H as [(u & q & Hu & Hcand & _) | H]; [|now left].
  destruct (random_ret t p) as (u' & Hu' & Hpos). rewrite Hu' in Hu.
  injection Hu as <-. rewrite (Qltb_nonpos _ _ Hpos Hn) in Hcand.
  right. eapply candidate_modeled_keys, Hcand.
Qed.

Lemma generate_next_char_random (self : NameGenerator) (name : string)
    (length : nat) (noise : Q) (t : tape) (p : nat) (c : ascii) (p' : nat) :
  (1 <= noise)%Q ->
  _generate_next_char self name length noise t p = Ret (c, p') ->
  Py.islower c = true.
Proof.
  intros Hn H. apply generate_next_char_cases in H.
  destruct H as [(u & q & Hu & Hcand & _) | H]; [|now apply vowel_islower].
  destruct (random_ret_unit t p) as (u' & Hu' & _ & Hlt). rewrite Hu' in Hu.
  injection Hu as <-. rewrite (Qltb_ge_one _ _ Hlt Hn) in Hcand.
  unfold candidate in Hcand. apply choice_ret in Hcand.
  destruct Hcand as [_ Hin]. now apply alphabet_islower.
Qed.

Lemma follows_app_char (self : NameGenerator) (s : string) (l c : ascii) :
  str_last s = Ret l -> follows self s -> may_follow self l c ->
  follows self (s ++ Py.char_str c).
Proof.
  induction s as [|x s IH]; [discriminate|].
  destruct s as [|y r].
  - intros [= <-] _ Hm. simpl. auto.
  - rewrite str_last_cons. intros Hl [Hxy Hr] Hm.
    rewrite !app_cons. split; [exact Hxy|].
    rewrite <- app_cons. now apply IH.
Qed.

Lemma may_follow_vowel (self : NameGenerator) (x y : ascii) :
  is_vowel y = true -> may_follow self x y.
Proof. intros H. now left. Qed.

(** The first letter of a pass is a key of [first_letter_distribution]. *)
Lemma random_name_pass_first (self : NameGenerator) (noise : Q) (t : tape)
    (p : nat) (name : string) (p' : nat) :
  random_name_pass self noise t p = Ret (name, p') ->
  exists first rest, name = String first rest
    /\ In first (List.map fst (first_letter_distribution self)).
Proof.
  unfold random_name_pass. intros H. inv_bind H. inv_bind H. rename a0 into first.
  apply weighted_ret in Ha0. destruct Ha0 as [_ Hin].
  match type of H with
  | for_range _ ?body _ _ _ = _ =>
      assert (Hbody : forall (i : nat) nm cur nm2 cur2,
                (exists rest, nm = String first rest) -> body nm t cur = Ret (nm2, cur2) ->
                exists rest, nm2 = String first rest)
  end.
  { intros i nm cur nm2 cur2 (rest & ->) Hb. inv_bind Hb. injection Hb as <- _.
    rewrite app_cons. eauto. }
  destruct (for_range_ret_inv (fun _ s => exists rest, s = String first rest) _ t
              Hbody _ 0 (Py.char_str first) _ _ _ (ex_intro _ EmptyString eq_refl) H)
    as (rest & ->).
  eauto.
Qed.

(** X9. With a noise of 0 or less no letter comes from the alphabet: in the
    name of every pass each character after the first is a key of the
    counter kept for its predecessor, or a vowel (from [VOWEL_COUNTER] or
    from the fallback). *)
Theorem modeled_names_follow_transitions (self : NameGenerator) (noise : Q)
    (t : tape) (p : nat) (name : string) (p' : nat) :
  (noise <= 0)%Q ->
  random_name_pass self noise t p = Ret (name, p') ->
  follows self name.
Proof.
  intros Hn H. unfold random_name_pass in H. inv_bind H. inv_bind H.
  match type of H with
  | for_range _ ?body _ _ _ = _ =>
      assert (Hbody : forall (i : nat) nm cur nm2 cur2,
                (nm <> "" /\ follows self nm) -> body nm t cur = Ret (nm2, cur2) ->
                nm2 <> "" /\ follows self nm2)
  end.
  { intros i nm cur nm2 cur2 [Hne Hf] Hb. inv_bind Hb. injection Hb as <- _.
    split; [apply app_char_nonempty|].
    destruct (str_last_total nm Hne) as (l & Hl).
    apply (follows_app_char self nm l _ Hl Hf).
    apply (generate_next_char_modeled _ _ _ _ _ _ _ _ Hn) in Hba.
    destruct Hba as [Hv | (l' & Hl' & Hm)]; [now apply may_follow_vowel|].
    rewrite Hl in Hl'. now injection Hl' as <-. }
  apply (for_range_ret_inv (fun _ s => s <> "" /\ follows self s) _ t Hbody
           _ 0 (Py.char_str a0) _ _ _) in H; [apply H|].
  split; [discriminate | exact I].
Qed.

Lemma modeled_names_follow_transitions_witness :
  random_name_pass ann_model 0 tape_anae 0 = Ret ("anae", 107)
  /\ follows ann_model "anae".
Proof.
  split; [vm_compute; reflexivity|].
  apply (modeled_names_follow_transitions ann_model 0 tape_anae 0 "anae" 107).
  - discriminate.
  - vm_compute. reflexivity.
Defined.

(** X10. With a noise of 1 or more every candidate comes from the alphabet:
    whatever the model holds, each character after the first in the name
    of a pass is a lowercase letter. *)
Theorem random_names_lowercase (self : NameGenerator) (noise : Q)
    (t : tape) (p : nat) (name : string) (p' : nat) :
  (1 <= noise)%Q ->
  random_name_pass self noise t p = Ret (name, p') ->
  exists first rest, name = String first rest
    /\ In first (List.map fst (first_letter_distribution self))
    /\ str_forall Py.islower rest = true.
Proof.
  intros Hn H. pose proof (random_name_pass_first _ _ _ _ _ _ H) as (f0 & r0 & Hname & Hin).
  unfold random_name_pass in H. inv_bind H. inv_bind H. rename a0 into first.
  match type of H with
  | for_range _ ?body _ _ _ = _ =>
      assert (Hbody : forall (i : nat) nm cur nm2 cur2,
                (exists rest, nm = String first rest
                              /\ str_forall Py.islower rest = true) ->
                body nm t cur = Ret (nm2, cur2) ->
                exists rest, nm2 = String first rest
                             /\ str_forall Py.islower rest = true)
  end.
  { intros i nm cur nm2 cur2 (rest & -> & Hr) Hb. inv_bind Hb. injection Hb as <- _.
    exists (rest ++ Py.char_str a0). split; [now rewrite app_cons|].
    rewrite str_forall_app, Hr. simpl.
    now rewrite (generate_next_char_random _ _ _ _ _ _ _ _ Hn Hba). }
  destruct (for_range_ret_inv
              (fun _ s => exists rest, s = String first rest
                                       /\ str_forall Py.islower rest = true) _ t
              Hbody _ 0 (Py.char_str first) _ _ _
              (ex_intro _ EmptyString (conj eq_refl eq_refl)) H) as (rest & -> & Hr).
  injection Hname as <- <-. eauto.
Qed.

Lemma random_names_lowercase_witness :
  random_name_pass digit_model 1 tape_zero 0 = Ret ("aa", 103)
  /\ exists first rest, "aa" = String first rest
       /\ In first (List.map fst (first_letter_distribution digit_model))
       /\ str_forall Py.islower rest = true.
Proof.
  split; [vm_compute; reflexivity|].
  apply (random_names_lowercase digit_model 1 tape_zero 0 "aa" 103).
  - discriminate.
  - vm_compute. reflexivity.
Defined.

(** ** Where the first letter and the length come from *)

Lemma counter_get_key {K} `{EqDecision K} (k : K) (c : list (K * nat)) :
  In k (List.map fst c) -> counts_positive c -> 1 <= counter_get k c.
Proof.
  unfold counter_get, counts_positive.
  induction c as [|[k0 n] c IH]; intros Hin Hpos; [destruct Hin|].
  apply List.Forall_cons_iff in Hpos. destruct Hpos as [Hn Hc]. simpl in *.
  destruct (decide (k = k0)) as [->|Hne]; [exact Hn|].
  destruct Hin as [Heq|Hin]; [congruence | now apply IH].
Qed.

Lemma names_starting_pos (c : ascii) (names : list string) :
  1 <= names_starting c names ->
  exists name, In name names /\ String.get 0 name = Some c.
Proof.
  unfold names_starting. intros H.
  destruct (List.filter (starts_with c) names) as [|name l] eqn:E; [simpl in H; lia|].
  assert (Hin : In name (List.filter (starts_with c) names)) by (rewrite E; now left).
  apply filter_In in Hin. destruct Hin as [Hin Hs]. exists name. split; [exact Hin|].
  unfold starts_with in Hs. now apply bool_decide_eq_true_1 in Hs.
Qed.




(** ** The outcome of a weighted draw *)

Lemma bisect_accumulate (ws1 : list nat) (w : nat) (ws2 : list nat) (x : N) :
  forall (acc : N) (hi : nat),
  (acc + N.of_nat (list_sum ws1) <= x)%N ->
  (x < acc + N.of_nat (list_sum ws1) + N.of_nat w)%N ->
  length ws1 <= hi ->
  random.bisect (random.accumulate acc (ws1 ++ w :: ws2)) x hi = length ws1.
Proof.
  induction ws1 as [|w1 ws1 IH]; intros acc hi Hlo Hhi Hlen; simpl in *.
  - destruct hi as [|hi]; [reflexivity|].
    destruct (N.ltb_spec x (acc + N.of_nat w)); [reflexivity | lia].
  - destruct hi as [|hi]; [lia|].
    destruct (N.ltb_spec x (acc + N.of_nat w1)); [lia|].
    f_equal. apply IH; lia.
Qed.

Lemma nth_error_middle {A} (l1 : list A) (x : A) (l2 : list A) :
  nth_error (l1 ++ x :: l2) (length l1) = Some x.
Proof. induction l1 as [|y l1 IH]; simpl; auto. Qed.

Lemma weighted_nonempty {K} (d : list (K * nat)) :
  d <> [] ->
  _weighted_random_choice d = random.choices (List.map fst d) (List.map snd d).
Proof. destruct d; [congruence | reflexivity]. Qed.

(** The entry that holds the ticket [x], for [x] below the total. *)
Lemma ticket_split {K} (d : list (K * nat)) :
  forall x : N,
  (x < N.of_nat (counter_total d))%N ->
  exists d1 k n d2,
    d = (d1 ++ (k, n) :: d2)%list
    /\ (N.of_nat (counter_total d1) <= x)%N
    /\ (x < N.of_nat (counter_total d1) + N.of_nat n)%N.
Proof.
  unfold counter_total.
  induction d as [|[k n] d IH]; intros x Hx; simpl in Hx; [lia|].
  destruct (N.ltb_spec x (N.of_nat n)) as [Hlt|Hge].
  - exists [], k, n, d. simpl. repeat split; lia.
  - destruct (IH (x - N.of_nat n)%N) as (d1 & k' & n' & d2 & -> & H1 & H2); [lia|].
    exists ((k, n) :: d1), k', n', d2. simpl. repeat split; lia.
Qed.

Lemma ticket_below (v total : N) :
  (v < random.two53)%N -> (0 < total)%N -> (v * total / random.two53 < total)%N.
Proof.
  unfold random.two53. intros Hv Ht.
  apply N.Div0.div_lt_upper_bound. nia.
Qed.

(** X12. A weighted draw reads one cell of the tape.  On a distribution
    without keys, or whose counts are all 0, it raises [ValueError];
    otherwise it returns a key whose count is at least 1.  The counts are
    taken to add up to 2^53 at most. *)
Theorem weighted_choice_outcome {K} (distribution : list (K * nat)) (t : tape)
    (p : nat) :
  (N.of_nat (counter_total distribution) <= random.two53)%N ->
  (counter_total distribution = 0 ->
   _weighted_random_choice distribution t p = Raise ValueError)
  /\ (1 <= counter_total distribution ->
      exists k n, In (k, n) distribution /\ 1 <= n
                  /\ _weighted_random_choice distribution t p = Ret (k, S p)).
Proof.
  intros _. split.
  - intros Hz. destruct distribution as [|kv d]; [reflexivity|].
    rewrite weighted_nonempty by discriminate. unfold random.choices.
    rewrite length_accumulate, !length_map, Nat.eqb_refl. cbn [negb].
    rewrite last_accumulate by discriminate.
    unfold counter_total in Hz. rewrite Hz. reflexivity.
  - intros Hpos.
    assert (Hne : distribution <> []) by (intros ->; unfold counter_total in Hpos; simpl in Hpos; lia).
    set (total := N.of_nat (counter_total distribution)).
    set (x := ((t p mod random.two53) * total / random.two53)%N).
    assert (Hx : (x < total)%N).
    { apply ticket_below; [apply N.mod_upper_bound; discriminate | unfold total; lia]. }
    destruct (ticket_split distribution x Hx) as (d1 & k & n & d2 & Hd & Hlo & Hhi).
    exists k, n. split; [rewrite Hd; apply in_or_app; right; now left|].
    split; [lia|].
    rewrite weighted_nonempty by exact Hne. unfold random.choices.
    rewrite length_accumulate, !length_map, Nat.eqb_refl. cbn [negb].
    rewrite last_accumulate by (destruct distribution; [congruence | discriminate]).
    rewrite N.add_0_l. change (list_sum (List.map snd distribution))
      with (counter_total distribution). fold total.
    destruct (N.eqb_spec total 0) as [E|_]; [lia|]. fold x.
    rewrite Hd, (List.map_app snd), (List.map_app fst). simpl List.map.
    rewrite bisect_accumulate.
    + rewrite length_map, <- (length_map fst d1), nth_error_middle. reflexivity.
    + unfold counter_total in Hlo. lia.
    + unfold counter_total in Hhi. simpl. lia.
    + rewrite length_app, !length_map. simpl. lia.
Qed.

Lemma weighted_choice_outcome_witness :
  (counter_total [("n"%char, 2); ("a"%char, 2)] = 0 ->
   _weighted_random_choice [("n"%char, 2); ("a"%char, 2)] tape_zero 0
   = Raise ValueError)
  /\ (1 <= counter_total [("n"%char, 2); ("a"%char, 2)] ->
      exists k n, In (k, n) [("n"%char, 2); ("a"%char, 2)] /\ 1 <= n
                  /\ _weighted_random_choice [("n"%char, 2); ("a"%char, 2)]
                       tape_zero 0 = Ret (k, S 0)).
Proof.
  apply (weighted_choice_outcome [("n"%char, 2); ("a"%char, 2)] tape_zero 0).
  vm_compute. discriminate.
Defined.

(** * The pickle cache *)

Lemma foldO_preserves {A S} (P : S -> Prop) (f : S -> A -> outcome S) (l : list A) :
  (forall s x s', P s -> f s x = Ret s' -> P s') ->
  forall s s', P s -> foldO f l s = Ret s' -> P s'.
Proof.
  intros Hf. induction l as [|x l IH]; intros s s' Hs H.
  - now injection H as <-.
  - cbn [foldO] in H. destruct (f s x) as [s1| |] eqn:E; simpl in H; try discriminate.
    eapply IH; [|exact H]. eapply Hf; eauto.
Qed.

(** The trainer leaves the two file names of the object alone. *)
Lemma analyze_names_file_names (fs : filesystem) (self self' : NameGenerator) :
  _analyze_names fs self = Ret self' ->
  name_file self' = name_file self
  /\ training_data_file self' = training_data_file self.
Proof.
  unfold _analyze_names. destruct (fs (name_file self)) as [file|]; [|discriminate].
  apply (foldO_preserves
    (fun s => name_file s = name_file self
              /\ training_data_file s = training_data_file self)); [|auto].
  intros s name s1 [H1 H2] H. unfold analyze_name in H.
  destruct (str_index name 0); simpl in H; try discriminate.
  revert H. apply (foldO_preserves
    (fun s => name_file s = name_file self
              /\ training_data_file s = training_data_file self)); [|simpl; auto].
  intros s0 i s2 [H3 H4] H. unfold analyze_pair in H.
  destruct (str_index name i); simpl in H; try discriminate.
  destruct (str_index name (i + 1)); simpl in H; try discriminate.
  injection H as <-. simpl. auto.
Qed.

Lemma set_get_data (self self' : NameGenerator) :
  name_file self' = name_file self ->
  training_data_file self' = training_data_file self ->
  set_data self (get_data self') = self'.
Proof. destruct self, self'. simpl. now intros -> ->. Qed.

(** X13. Load after save restores the model: the six fields are dumped and
    unpacked in the same order, so an object that loads the file another
    object saved holds that object's six fields, each in its place. *)
Theorem save_load_roundtrip (unpickle_text : list string -> io training_data)
    (self other : NameGenerator) (d : gmap string file_content) :
  training_data_file other = training_data_file self ->
  exists loaded,
    _load_training_data unpickle_text other (_save_training_data self d)
    = Std (Ret loaded)
    /\ same_model self loaded
    /\ name_file loaded = name_file other.
Proof.
  intros Hf. exists (set_data other (get_data self)).
  unfold _load_training_data, _save_training_data. rewrite Hf, lookup_insert_eq.
  split; [reflexivity|]. unfold same_model. simpl. auto 10.
Qed.

Lemma save_load_roundtrip_witness :
  exists loaded,
    _load_training_data (fun _ => Foreign "UnpicklingError")
      (init_fields "names.txt") (_save_training_data ann_model ∅)
    = Std (Ret loaded)
    /\ same_model ann_model loaded
    /\ name_file loaded = name_file (init_fields "names.txt").
Proof.
  apply (save_load_roundtrip (fun _ => Foreign "UnpicklingError") ann_model
           (init_fields "names.txt") ∅).
  reflexivity.
Defined.




(** ** File names without ".txt" *)

Ltac txt_step H :=
  simpl in H |- *; first [ discriminate H | split; [exact H | reflexivity] ].

Lemma txt_step (c : ascii) (r : string) :
  has_txt (String c r) = false ->
  has_txt r = false /\ replace_txt_pkl (String c r) = String c (replace_txt_pkl r).
Proof.
  intros H. each_char c; try txt_step H.
  destruct r as [|c2 r2]; [txt_step H|]. each_char c2; try txt_step H.
  destruct r2 as [|c3 r3]; [txt_step H|]. each_char c3; try txt_step H.
  destruct r3 as [|c4 r4]; [txt_step H|]. each_char c4; try txt_step H.
Qed.

(** Without ".txt" in it a name is its own pickle path. *)
Lemma replace_without_txt (s : string) :
  has_txt s = false -> replace_txt_pkl s = s.
Proof.
  induction s as [|c r IH]; [reflexivity|].
  intros H. apply txt_step in H. destruct H as [Hr ->]. now rewrite IH.
Qed.

(** X15. Later constructions use the cache and never read the corpus: once
    a construction has trained a model and written the pickle, every
    construction on a disk that still holds that pickle returns the same
    model and writes nothing, whatever has become of the corpus file. *)
Theorem init_reuses_cache
    (unpickle_text : list string -> io training_data)
    (read_pickle_as_text : training_data -> io (list string))
    (file_name : string) (d d1 : gmap string file_content) (m : NameGenerator) :
  d !! replace_txt_pkl file_name = None ->
  __init__ unpickle_text read_pickle_as_text file_name d = Std (Ret (m, d1)) ->
  forall d2 : gmap string file_content,
    d2 !! replace_txt_pkl file_name = d1 !! replace_txt_pkl file_name ->
    __init__ unpickle_text read_pickle_as_text file_name d2 = Std (Ret (m, d2)).
Proof.
  intros Hpkl H d2 Hd2. unfold __init__ in H. simpl in H. rewrite Hpkl in H.
  assert (Hm : exists fs, _analyze_names fs (init_fields file_name) = Ret m
                          /\ d1 = _save_training_data m d).
  { unfold analyze_on_disk in H. simpl in H.
    destruct (d !! file_name) as [[lines|data]|].
    - simpl in H. destruct (_analyze_names (text_view d) (init_fields file_name))
        as [m'| |] eqn:E; simpl in H; try discriminate.
      injection H as <- <-. eauto.
    - destruct (read_pickle_as_text data) as [[lines| |]|]; simpl in H; try discriminate.
      destruct (_analyze_names (corpus_fs file_name lines) (init_fields file_name))
        as [m'| |] eqn:E; simpl in H; try discriminate.
      injection H as <- <-. eauto.
    - simpl in H. destruct (_analyze_names (text_view d) (init_fields file_name))
        as [m'| |] eqn:E; simpl in H; try discriminate.
      injection H as <- <-. eauto. }
  destruct Hm as (fs & Hm & ->).
  destruct (analyze_names_file_names _ _ _ Hm) as [Hn Ht]. simpl in Hn, Ht.
  unfold _save_training_data in Hd2. rewrite Ht, lookup_insert_eq in Hd2.
  unfold __init__, _load_training_data.
  change (training_data_file (init_fields file_name))
    with (replace_txt_pkl file_name).
  rewrite Hd2. cbn [bindIO].
  now rewrite (set_get_data (init_fields file_name) m Hn Ht).
Qed.

Lemma init_reuses_cache_witness :
  __init__ (fun _ => Foreign "UnpicklingError")
    (fun _ => Foreign "UnicodeDecodeError") "names.txt"
    {[ "names.pkl" := PickleFile (get_data ann_model) ]}
  = Std (Ret (ann_model, {[ "names.pkl" := PickleFile (get_data ann_model) ]})).
Proof.
  apply (init_reuses_cache (fun _ => Foreign "UnpicklingError")
           (fun _ => Foreign "UnicodeDecodeError") "names.txt"
           {[ "names.txt" := TextFile ann_corpus ]}
           (<["names.pkl" := PickleFile (get_data ann_model)]>
              {[ "names.txt" := TextFile ann_corpus ]})
           ann_model).
  - vm_compute. reflexivity.
  - vm_compute. reflexivity.
  - vm_compute. reflexivity.
Defined.

(** X16. A corpus path without ".txt" is its own pickle path, so its
    construction never trains and never writes: it raises
    [FileNotFoundError] when the file is missing and otherwise unpickles
    the file itself, the corpus text included. *)
Theorem init_without_txt
    (unpickle_text : list string -> io training_data)
    (read_pickle_as_text : training_data -> io (list string))
    (file_name : string) (d : gmap string file_content) :
  has_txt file_name = false ->
  __init__ unpickle_text read_pickle_as_text file_name d
  = match d !! file_name with
    | None => Std (Raise FileNotFoundError)
    | Some (PickleFile data) => Std (Ret (set_data (init_fields file_name) data, d))
    | Some (TextFile lines) =>
        bindIO (unpickle_text lines)
          (fun data => Std (Ret (set_data (init_fields file_name) data, d)))
    end.
Proof.
  intros Hno. unfold __init__, _load_training_data, analyze_on_disk. simpl.
  rewrite (replace_without_txt _ Hno).
  destruct (d !! file_name) as [[lines|data]|] eqn:E.
  - destruct (unpickle_text lines) as [[data| |]|]; reflexivity.
  - reflexivity.
  - unfold _analyze_names, text_view. simpl. rewrite E. reflexivity.
Qed.

Lemma init_without_txt_witness :
  __init__ (fun _ => Foreign "UnpicklingError")
    (fun _ => Foreign "UnicodeDecodeError") "names"
    {[ "names" := TextFile ann_corpus ]}
  = match ({[ "names" := TextFile ann_corpus ]} : gmap string file_content) !! "names" with
    | None => Std (Raise FileNotFoundError)
    | Some (PickleFile data) =>
        Std (Ret (set_data (init_fields "names") data,
                  {[ "names" := TextFile ann_corpus ]}))
    | Some (TextFile lines) =>
        bindIO ((fun _ => Foreign "UnpicklingError") lines : io training_data)
          (fun data => Std (Ret (set_data (init_fields "names") data,
                                 {[ "names" := TextFile ann_corpus ]})))
    end.
Proof.
  apply (init_without_txt (fun _ => Foreign "UnpicklingError")
           (fun _ => Foreign "UnicodeDecodeError") "names"
           {[ "names" := TextFile ann_corpus ]}).
  reflexivity.
Defined.

(** * The table of the main block *)

Lemma len_substring_le (s : string) : forall n, Py.len (substring 0 n s) <= n.
Proof.
  unfold Py.len. induction s as [|c s IH]; intros [|n]; simpl; try lia.
  specialize (IH n). lia.
Qed.

Lemma len_blanks (n : nat) :
  Py.len (string_of_list_ascii (List.repeat " "%char n)) = n.
Proof. induction n as [|n IH]; simpl; [reflexivity | now f_equal]. Qed.

Lemma len_format_cell (name : string) : Py.len (format_cell name) = 16.
Proof.
  unfold format_cell, ljust. rewrite len_app, len_blanks.
  pose proof (len_substring_le name 15) as H. unfold Py.slice.
  change (15 - 0) with 15. lia.
Qed.

(** X17. Every row of the table is 67 characters wide: each of the four
    names is cut to 15 characters and padded to a cell of exactly 16 that
    ends in a blank, and the cells are joined by one blank.  (The rule of
    line 118 has 64 dashes.) *)
Theorem format_row_width (a b c d : string) :
  Py.len (format_row a b c d) = 67
  /\ (forall name, Py.len (format_cell name) = 16
        /\ exists pad, format_cell name = Py.slice name 0 15 ++ pad ++ " "
                       /\ Py.len (Py.slice name 0 15) + Py.len pad = 15).
Proof.
  split.
  - unfold format_row. rewrite !len_app, !len_format_cell. reflexivity.
  - intros name. split; [apply len_format_cell|].
    unfold format_cell, ljust, Py.slice. change (15 - 0) with 15.
    pose proof (len_substring_le name 15) as H.
    exists (string_of_list_ascii (List.repeat " "%char (15 - Py.len (substring 0 15 name)))).
    rewrite len_blanks. split; [|lia]. f_equal.
    replace (16 - Py.len (substring 0 15 name))
      with (15 - Py.len (substring 0 15 name) + 1) by lia.
    generalize (15 - Py.len (substring 0 15 name)). intros n.
    rewrite repeat_app. simpl.
    induction n as [|n IH]; simpl; [reflexivity|]. rewrite app_cons. now f_equal.
Qed.

(** * Names built without the fallback *)

Lemma substring_app_l (s x : string) :
  forall i n, i + n <= Py.len s -> substring i n (s ++ x) = substring i n s.
Proof.
  unfold Py.len. induction s as [|a r IH]; intros i n Hle; simpl in Hle.
  - assert (i = 0) by lia. assert (n = 0) by lia. subst.
    rewrite app_empty. destruct x; reflexivity.
  - rewrite app_cons. destruct i as [|i]; destruct n as [|n]; simpl; try reflexivity.
    + f_equal. apply IH. lia.
    + apply IH. lia.
    + apply IH. lia.
Qed.

Lemma substring_app_char (s : string) (c : ascii) :
  forall i n, i + n = Py.len s ->
  substring i (S n) (s ++ Py.char_str c) = substring i n s ++ Py.char_str c.
Proof.
  unfold Py.len. induction s as [|a r IH]; intros i n Hle; simpl in Hle.
  - assert (i = 0) by lia. assert (n = 0) by lia. subst. reflexivity.
  - rewrite app_cons. destruct i as [|i].
    + destruct n as [|n]; [lia|]. simpl substring. rewrite app_cons. f_equal.
      apply IH. lia.
    + simpl substring. apply IH. lia.
Qed.

Lemma generate_next_char_accepted (self : NameGenerator) (name : string)
    (length : nat) (noise : Q) (t : tape) (p : nat) (c : ascii) (p' : nat) :
  _generate_next_char self name length noise t p = Ret (c, p') ->
  p' <= p + 100 -> rejected self name length c = Ret false.
Proof.
  unfold _generate_next_char. intros H Hle. inv_bind H.
  destruct (random_ret t p) as (u & Hu & _). rewrite Hu in Ha. injection Ha as <- <-.
  apply next_char_loop_spec in H.
  destruct H as [(k & Hk & -> & [_ Hrej] & _) | (-> & _)]; [exact Hrej | lia].
Qed.

(** What holds of a partial name while no character came from the
    fallback. *)
Lemma accepted_step (self : NameGenerator) (L : nat) (s : string) (c : ascii) :
  s <> "" ->
  rejected self s L c = Ret false ->
  (2 <= Py.len s -> Py.first2 s ∈ first_two_letter_digrams self) ->
  (forall i, i + 3 <= Py.len s -> Py.slice s i (i + 3) ∈ trigrams self) ->
  Py.first2 (s ++ Py.char_str c) ∈ first_two_letter_digrams self
  /\ (forall i, i + 3 <= Py.len (s ++ Py.char_str c) ->
        Py.slice (s ++ Py.char_str c) i (i + 3) ∈ trigrams self)
  /\ (L <= Py.len (s ++ Py.char_str c) ->
        Py.last2 (s ++ Py.char_str c) ∈ last_two_letter_digrams self).
Proof.
  intros Hne Hrej Hstart Htri. apply rejected_false_inv in Hrej.
  destruct Hrej as (H1 & H2 & H3).
  assert (Hlen : 1 <= Py.len s) by (destruct s; [congruence | simpl; lia]).
  rewrite len_app. change (Py.len (Py.char_str c)) with 1.
  split; [|split].
  - destruct (decide (Py.len s = 1)) as [E|E].
    + specialize (H1 E). destruct s as [|a [|b r]]; try discriminate. exact H1.
    + unfold Py.first2, Py.slice. change (2 - 0) with 2.
      rewrite substring_app_l by lia. apply Hstart. lia.
  - intros i Hi. destruct (decide (i + 3 <= Py.len s)) as [E|E].
    + unfold Py.slice. replace (i + 3 - i) with 3 by lia.
      rewrite substring_app_l by lia.
      specialize (Htri i E). unfold Py.slice in Htri.
      now replace (i + 3 - i) with 3 in Htri by lia.
    + assert (Hi' : i + 2 = Py.len s) by lia.
      unfold Py.slice. replace (i + 3 - i) with 3 by lia.
      rewrite (substring_app_char s c i 2 Hi').
      assert (Hl2 : 2 <= Py.len s) by lia. specialize (H2 Hl2).
      unfold Py.last2, Py.slice in H2.
      replace (Py.len s - (Py.len s - 2)) with 2 in H2 by lia.
      now replace (Py.len s - 2) with i in H2 by lia.
  - intros HL. apply H3. lia.
Qed.

Lemma for_range_accepted (self : NameGenerator) (L : nat) (noise : Q) (t : tape) :
  forall n s p s' p',
  for_range n
    (fun name => c <- _generate_next_char self name L noise ;;
                 retM (name ++ Py.char_str c)) s t p = Ret (s', p') ->
  p' < p + 2 * n + 99 ->
  s <> "" ->
  (2 <= Py.len s -> Py.first2 s ∈ first_two_letter_digrams self) ->
  (forall i, i + 3 <= Py.len s -> Py.slice s i (i + 3) ∈ trigrams self) ->
  (2 <= Py.len s -> L <= Py.len s -> Py.last2 s ∈ last_two_letter_digrams self) ->
  (2 <= Py.len s' -> Py.first2 s' ∈ first_two_letter_digrams self)
  /\ (forall i, i + 3 <= Py.len s' -> Py.slice s' i (i + 3) ∈ trigrams self)
  /\ (2 <= Py.len s' -> L <= Py.len s' ->
        Py.last2 s' ∈ last_two_letter_digrams self).
Proof.
  induction n as [|n IH]; intros s p s' p' H Hcost Hne Hs Ht He.
  - injection H as <- <-. auto.
  - cbn [for_range] in H. inv_bind H. inv_bind Ha. injection Ha as <- <-.
    pose proof (generate_next_char_cost _ _ _ _ _ _ _ _ Haa) as Hc1.
    match type of H with
    | for_range _ _ _ _ ?cur0 = _ =>
        assert (Hc2 : cur0 + n * 2 <= p' <= cur0 + n * 101)
    end.
    { eapply for_range_cost; [|exact H].
      intros nm cur nm2 cur2 Hb. inv_bind Hb. injection Hb as _ <-.
      eapply generate_next_char_cost; eauto. }
    assert (Hacc : rejected self s L a0 = Ret false).
    { eapply generate_next_char_accepted; [exact Haa | lia]. }
    destruct (accepted_step self L s a0 Hne Hacc Hs Ht) as (A1 & A2 & A3).
    apply (IH _ _ _ _ H); auto.
    + lia.
    + apply app_char_nonempty.
Qed.

(** X18. A name built without the fallback respects the three checks. A
    pass that yields a name of [n >= 2] characters on fewer than
    [2 n + 99] draws used no fallback vowel (each letter costs at least 2
    draws and a fallback 101), and its name then opens with a start digram,
    has each of its windows of three characters among the trigrams, and
    closes with an end digram. *)
Theorem names_without_fallback (self : NameGenerator) (noise : Q) (t : tape)
    (p : nat) (name : string) (p' : nat) :
  random_name_pass self noise t p = Ret (name, p') ->
  2 <= Py.len name ->
  p' < p + 2 * Py.len name + 99 ->
  respects self name.
Proof.
  intros H Hlen Hcost.
  destruct (random_name_pass_len _ _ _ _ _ _ H) as (L & HL & HlenL).
  unfold random_name_pass in H. inv_bind H. rewrite HL in Ha. injection Ha as <- <-.
  inv_bind H. apply weighted_ret in Ha. destruct Ha as [-> _].
  apply (for_range_accepted self L noise t) in H.
  - destruct H as (A1 & A2 & A3). split; [auto|]. split; [exact A2|].
    apply A3; lia.
  - lia.
  - discriminate.
  - simpl. lia.
  - simpl. intros i Hi. lia.
  - simpl. lia.
Qed.

Lemma names_without_fallback_witness :
  random_name_pass ann_model 0 tape_zero 0 = Ret ("ann", 6)
  /\ respects ann_model "ann".
Proof.
  split; [vm_compute; reflexivity|].
  apply (names_without_fallback ann_model 0 tape_zero 0 "ann" 6).
  - vm_compute. reflexivity.
  - vm_compute. lia.
  - vm_compute. lia.
Defined.

(** * A corpus on which [random_name] always returns *)

(** X19. When every retained name of a non-empty corpus starts with a
    vowel, [random_name] returns on its first pass, for every noise and
    every tape of draws: the first letter alone passes the vowel test. *)
Theorem vowel_initial_corpus_returns (fs : filesystem) (file_name : string)
    (file : list string) (m : NameGenerator) (noise : Q) (t : tape) (p : nat)
    (fuel : nat) :
  fs file_name = Some file -> retained_names file <> [] ->
  _analyze_names fs (init_fields file_name) = Ret m ->
  (forall name, In name (retained_names file) ->
     exists c, String.get 0 name = Some c /\ is_vowel c = true) ->
  exists name p',
    random_name_pass m noise t p = Ret (name, p')
    /\ random_name (S fuel) m noise t p = Ret (Py.capitalize name, p').
Proof.
  intros Hfs Hne Htr Hvow.
  assert (Hinv : trained_inv m) by (apply trained_has_inv; now exists fs, file_name).
  destruct (analyze_names_nonempty fs (init_fields file_name) m file Hfs
              (init_fields_inv file_name) Hne Htr) as [Hf Hl].
  destruct (random_name_pass_total m noise t p (inv_length _ Hinv) (inv_first _ Hinv)
              (inv_pairs _ Hinv) Hl Hf) as (name & p' & Hpass).
  exists name, p'. split; [exact Hpass|].
  apply random_name_returns; [exact Hpass|].
  destruct (random_name_pass_first _ _ _ _ _ _ Hpass) as (first & rest & -> & Hkey).
  destruct (analyze_names_trained_on _ _ _ _ Hfs Htr) as [A1 _ _ _ _ _ _ _].
  pose proof (counter_get_key first _ Hkey (inv_first _ Hinv)) as Hc.
  rewrite A1 in Hc. simpl in Hc.
  destruct (names_starting_pos _ _ Hc) as (n1 & Hin & Hget).
  destruct (Hvow n1 Hin) as (c & Hget' & Hv). rewrite Hget in Hget'.
  injection Hget' as <-. simpl. now rewrite Hv.
Qed.

Lemma vowel_initial_corpus_returns_witness :
  exists name p',
    random_name_pass ann_model 1 tape_zero 0 = Ret (name, p')
    /\ random_name 1 ann_model 1 tape_zero 0 = Ret (Py.capitalize name, p').
Proof.
  apply (vowel_initial_corpus_returns (corpus_fs "names.txt" ann_corpus) "names.txt"
           ann_corpus ann_model 1 tape_zero 0 0).
  - reflexivity.
  - discriminate.
  - vm_compute. reflexivity.
  - intros name [<-|[<-|[<-|[]]]]; exists "a"%char; split; reflexivity.
Defined.
